(** * Travelling Tournament Problem: random-schedule violation experiment

    A shallow embedding of [main.py] and the verification of its
    specification.  Python integers are unbounded and are modelled by [Z];
    dictionaries are finite maps ([gmap]); exceptions are carried by an
    explicit [result] type; the process-global random source is an abstract
    state threaded through the methods that shuffle; the file system is
    outside the program, and each write of a results file is given by its
    outcome. *)

From stdpp Require Import base gmap strings pretty list list_numbers sorting fin_maps.
From Stdlib Require Import ZArith Lia.

Local Open Scope Z_scope.

(** ** Exceptions *)

Inductive exn :=
  ZeroDivisionError | TypeError | IndexError | KeyError | OverflowError | OSError.

Inductive result (A : Type) :=
  | Ok (a : A)
  | Raise (e : exn).
Arguments Ok {A} a.
Arguments Raise {A} e.

Definition rbind {A B} (m : result A) (k : A → result B) : result B :=
  match m with
  | Ok a => k a
  | Raise e => Raise e
  end.

Declare Scope result_scope.
Delimit Scope result_scope with result.
Notation "x <- m ;; k" := (rbind m (λ x, k))
  (at level 20, m at level 99, k at level 200, right associativity) : result_scope.
Notation "' p <- m ;; k" := (rbind m (λ x, match x with p => k end))
  (at level 20, p pattern, m at level 99, k at level 200, right associativity) : result_scope.

(** [list(map(f, xs))] where [f] may raise: the first exception wins. *)
Fixpoint traverse {A B} (f : A → result B) (xs : list A) : result (list B) :=
  match xs with
  | [] => Ok []
  | x :: xs' => (y <- f x ;; ys <- traverse f xs' ;; Ok (y :: ys))%result
  end.

(** A [for] loop with an accumulator whose body may raise. *)
Fixpoint for_each {A S} (body : S → A → result S) (acc : S) (xs : list A) : result S :=
  match xs with
  | [] => Ok acc
  | x :: xs' => (acc' <- body acc x ;; for_each body acc' xs')%result
  end.

(** ** Python built-ins used by the program *)

(** [a // b] and [a % b]: floor division, as [Z.div] and [Z.modulo], except
    that a zero divisor raises. *)
Definition floordiv (a b : Z) : result Z :=
  if decide (b = 0) then Raise ZeroDivisionError else Ok (a / b).

Definition pymod (a b : Z) : result Z :=
  if decide (b = 0) then Raise ZeroDivisionError else Ok (a mod b).

(** [range(a, b)] *)
Definition range (a b : Z) : list Z := seqZ a (b - a).

(** [lst[i]], with Python's negative indices. *)
Definition getitem {A} (lst : list A) (i : Z) : result A :=
  let j := if i <? 0 then i + Z.of_nat (length lst) else i in
  if j <? 0 then Raise IndexError
  else match lst !! Z.to_nat j with
       | Some x => Ok x
       | None => Raise IndexError
       end.

(** [dic[key]] on a dict. *)
Definition dict_getitem `{Countable K} {V} (dic : gmap K V) (key : K) : result V :=
  match dic !! key with
  | Some v => Ok v
  | None => Raise KeyError
  end.

(** [itertools.batched(lst, n)]: consecutive chunks of [n] items, the last
    one shorter when the items run out.  [chunk] is the batch being filled,
    most recent item first. *)
Fixpoint batched_from {A} (n : nat) (chunk : list A) (lst : list A) : list (list A) :=
  match lst with
  | [] => match chunk with [] => [] | _ => [reverse chunk] end
  | x :: lst' =>
      if (length (x :: chunk) =? n)%nat
      then reverse (x :: chunk) :: batched_from n [] lst'
      else batched_from n (x :: chunk) lst'
  end.

Definition batched {A} (lst : list A) (n : nat) : list (list A) :=
  batched_from n [] lst.

(** [sorted] on integers. *)
Definition sorted (lst : list Z) : list Z := merge_sort Z.le lst.

(** [collections.Counter(lst)] and the lookup [counter[key]], which is 0 for
    a missing key. *)
Definition Counter `{Countable K} (lst : list K) : gmap K Z :=
  foldl (λ c x, <[x := default 0 (c !! x) + 1]> c) ∅ lst.

Definition counter_get `{Countable K} (c : gmap K Z) (key : K) : Z :=
  default 0 (c !! key).

(** ** Module-level helpers *)

Definition flatten {A} (lst : list (list A)) : list A :=
  concat lst.

(** [increment(dic, key, inc)]: every call leaves [default] at 0. *)
Definition increment (dic : gmap Z Z) (key inc : Z) : gmap Z Z :=
  let val := default 0 (dic !! key) in
  <[key := val + inc]> dic.

(** ** The [Statistic] accumulator *)

Module Statistic.

(** An integer or [math.inf], the initial value of [minimum]. *)
Inductive bound := Finite (z : Z) | inf.

Record Statistic := {
  n : Z;
  accumulator : Z;
  maximum : Z;
  minimum : bound
}.

(** [Statistic()] *)
Definition init : Statistic :=
  {| n := 0; accumulator := 0; maximum := 0; minimum := inf |}.

(** [min(self.minimum, value)]: the first argument unless the second is
    strictly smaller; every integer is below [inf]. *)
Definition min_bound (m : bound) (value : Z) : bound :=
  match m with
  | inf => Finite value
  | Finite z => if value <? z then Finite value else Finite z
  end.

(** [max(self.maximum, value)]: the first argument unless the second is
    strictly larger. *)
Definition max_int (m value : Z) : Z :=
  if value >? m then value else m.

(** [record] updates the object in place; the updated object is returned. *)
Definition record (self : Statistic) (value : Z) : Statistic :=
  {| n := n self + 1;
     accumulator := accumulator self + value;
     maximum := max_int (maximum self) value;
     minimum := min_bound (minimum self) value |}.

(** [evaluate]: the quotient [accumulator / n] is a float.  [truediv] stands
    for the true division of two integers by a divisor that is not zero: it
    returns the float nearest to the quotient, or raises [OverflowError] when
    the quotient is too large for a float. *)
Definition evaluate {F} (truediv : Z → Z → result F) (self : Statistic)
    : result (F * bound * Z) :=
  (mean <- (if decide (n self = 0) then Raise ZeroDivisionError
            else truediv (accumulator self) (n self)) ;;
   Ok (mean, minimum self, maximum self))%result.

End Statistic.

(** ** The [Experiment] object *)

Record Experiment := {
  NREPETITIONS : Z;
  NTEAMS : Z;
  NROUNDS : Z;
  NGAMES : Z;
  NGAMESPERROUND : Z;
  MAXSTREAK : Z;
  maxStreakViolations : gmap Z Z;
  doubleRoundRobinViolations : gmap Z Z;
  noRepeatViolations : gmap Z Z
}.

(** [Experiment.__init__] (the creation time is only used to name the output
    file and is left out). *)
Definition Experiment_init (repetitions nTeams maxStreak : Z) : result Experiment :=
  let nrounds := 2 * (nTeams - 1) in
  let ngames := nTeams * (nTeams - 1) in
  (ngamesperround <- floordiv ngames nrounds ;;
   Ok {| NREPETITIONS := repetitions;
         NTEAMS := nTeams;
         NROUNDS := nrounds;
         NGAMES := ngames;
         NGAMESPERROUND := ngamesperround;
         MAXSTREAK := maxStreak;
         maxStreakViolations := ∅;
         doubleRoundRobinViolations := ∅;
         noRepeatViolations := ∅ |})%result.

Definition set_maxStreakViolations (h : gmap Z Z) (e : Experiment) : Experiment :=
  {| NREPETITIONS := NREPETITIONS e; NTEAMS := NTEAMS e; NROUNDS := NROUNDS e;
     NGAMES := NGAMES e; NGAMESPERROUND := NGAMESPERROUND e; MAXSTREAK := MAXSTREAK e;
     maxStreakViolations := h;
     doubleRoundRobinViolations := doubleRoundRobinViolations e;
     noRepeatViolations := noRepeatViolations e |}.

Definition set_doubleRoundRobinViolations (h : gmap Z Z) (e : Experiment) : Experiment :=
  {| NREPETITIONS := NREPETITIONS e; NTEAMS := NTEAMS e; NROUNDS := NROUNDS e;
     NGAMES := NGAMES e; NGAMESPERROUND := NGAMESPERROUND e; MAXSTREAK := MAXSTREAK e;
     maxStreakViolations := maxStreakViolations e;
     doubleRoundRobinViolations := h;
     noRepeatViolations := noRepeatViolations e |}.

Definition set_noRepeatViolations (h : gmap Z Z) (e : Experiment) : Experiment :=
  {| NREPETITIONS := NREPETITIONS e; NTEAMS := NTEAMS e; NROUNDS := NROUNDS e;
     NGAMES := NGAMES e; NGAMESPERROUND := NGAMESPERROUND e; MAXSTREAK := MAXSTREAK e;
     maxStreakViolations := maxStreakViolations e;
     doubleRoundRobinViolations := doubleRoundRobinViolations e;
     noRepeatViolations := h |}.

(** *** The game codec *)

Definition gameIdToTeamIds (self : Experiment) (gid : Z) : result (Z * Z) :=
  (host <- floordiv gid (NTEAMS self - 1) ;;
   guest <- pymod gid (NTEAMS self - 1) ;;
   let guest := if guest >=? host then guest + 1 else guest in
   Ok (host, guest))%result.

Definition teamIdsToGameId (self : Experiment) (host guest : Z) : Z :=
  let gid := host * (NTEAMS self - 1) + guest in
  let gid := if guest >? host then gid - 1 else gid in
  gid.

(** The call of [teamIdsToGameId] with the unpacked batch [t] as arguments:
    a batch that is not a pair is a wrong number of arguments. *)
Definition teamIdsToGameId_star (self : Experiment) (t : list Z) : result Z :=
  match t with
  | [host; guest] => Ok (teamIdsToGameId self host guest)
  | _ => Raise TypeError
  end.

(** *** The violation counters *)

Definition countDoubleRoundRobinViolations
    (self : Experiment) (tournament : list (list (Z * Z))) : Z :=
  let counter := Counter (flatten tournament) in
  foldl (λ violations host,
    foldl (λ violations guest,
      let violations := violations + Z.abs (1 - counter_get counter (host, guest)) in
      let violations := violations + Z.abs (1 - counter_get counter (guest, host)) in
      violations)
    violations (range (host + 1) (NTEAMS self)))
  0 (range 0 (NTEAMS self)).

Definition countNoRepeatViolations
    (self : Experiment) (tournament : list (list (Z * Z))) : result Z :=
  for_each (λ violations nextRoundNr,
    let currentRoundNr := nextRoundNr - 1 in
    (nextRound <- getitem tournament nextRoundNr ;;
     currentRound <- getitem tournament currentRoundNr ;;
     Ok (foldl (λ violations '(host, guest),
           let violations :=
             if bool_decide ((host, guest) ∈ nextRound) then violations + 1 else violations in
           let violations :=
             if bool_decide ((guest, host) ∈ nextRound) then violations + 1 else violations in
           violations)
         violations currentRound))%result)
  0 (range 1 (NROUNDS self)).

Definition countMaxStreakViolations
    (self : Experiment) (tournament : list (list (Z * Z))) : result Z :=
  let streak : gmap Z (Z * Z) :=
    foldl (λ d team, <[team := (0, 0)]> d) ∅ (range 0 (NTEAMS self)) in
  ('(violations, _) <-
     for_each (λ st round,
       for_each (λ '(violations, streak) '(host, guest),
         ('(home, away) <- dict_getitem streak host ;;
          let violations := if home + 1 >? MAXSTREAK self then violations + 1 else violations in
          let streak := <[host := (home + 1, 0)]> streak in
          '(home, away) <- dict_getitem streak guest ;;
          let violations := if away + 1 >? MAXSTREAK self then violations + 1 else violations in
          let streak := <[guest := (0, away + 1)]> streak in
          Ok (violations, streak))%result)
       st round)
     (0, streak) tournament ;;
   Ok violations)%result.

(** ** Methods that consume randomness or mutate the object

    [random.shuffle] is the only use of the random source.  The source is an
    abstract state [rng]; [shuffle] returns the shuffled list and the next
    state.  A [Py] computation runs in a world made of the experiment object
    and the random state, and either returns or raises; the world it leaves
    behind is kept in both cases, as mutation before an exception is. *)

Section WithRandomSource.
Context {rng : Type}.
Variable shuffle : rng → list Z → list Z * rng.

Record World := { this : Experiment; rand : rng }.

Definition Py (A : Type) : Type := World → result A * World.

Definition ret {A} (a : A) : Py A := λ w, (Ok a, w).

Definition bind {A B} (m : Py A) (k : A → Py B) : Py B :=
  λ w, match m w with
       | (Ok a, w') => k a w'
       | (Raise e, w') => (Raise e, w')
       end.

Definition lift {A} (r : result A) : Py A := λ w, (r, w).

Definition get_this : Py Experiment := λ w, (Ok (this w), w).

Definition modify_this (f : Experiment → Experiment) : Py unit :=
  λ w, (Ok tt, {| this := f (this w); rand := rand w |}).

Declare Scope py_scope.
Delimit Scope py_scope with py.
Notation "x <- m ;; k" := (bind m (λ x, k))
  (at level 20, m at level 99, k at level 200, right associativity) : py_scope.
Notation "m ;;; k" := (bind m (λ _, k))
  (at level 100, k at level 200, right associativity) : py_scope.

(** [[m for _ in range(n)]] *)
Fixpoint repeat_py {A} (n : nat) (m : Py A) : Py (list A) :=
  match n with
  | O => ret []
  | S n' => (x <- m ;; xs <- repeat_py n' m ;; ret (x :: xs))%py
  end.

(** [for _ in range(n): m] *)
Fixpoint loop_py (n : nat) (m : Py unit) : Py unit :=
  match n with
  | O => ret tt
  | S n' => (m ;;; loop_py n' m)%py
  end.

Definition shuffled (lst : list Z) : Py (list Z) :=
  λ w, let '(lst', s) := shuffle (rand w) lst in
       (Ok lst', {| this := this w; rand := s |}).

Definition randomRound : Py (list Z) :=
  (self <- get_this ;;
   let teamIds := range 0 (NTEAMS self) in
   shuffledTeamIds <- shuffled teamIds ;;
   games <- lift (traverse (teamIdsToGameId_star self) (batched shuffledTeamIds 2)) ;;
   ret (sorted games))%py.

Definition randomTournament : Py (list (list (Z * Z))) :=
  (self <- get_this ;;
   repeat_py (Z.to_nat (NROUNDS self))
     (round <- randomRound ;;
      lift (traverse (gameIdToTeamIds self) round)))%py.

(** [saveResults] opens the output file of the object for writing and dumps
    the three histograms into it.  The file system is outside the program:
    [write_results] is the outcome of that write for the object, which
    returns, or raises when the file cannot be opened or written (a missing
    [output] directory, for one).  The object is left as it is. *)
Variable write_results : Experiment → result unit.

Definition saveResults : Py unit :=
  (self <- get_this ;;
   lift (write_results self))%py.

(** One pass through the body of the loop of [execute]. *)
Definition execute_repetition : Py unit :=
  (tournament <- randomTournament ;;
   self <- get_this ;;
   violations <- lift (countMaxStreakViolations self tournament) ;;
   modify_this (λ e, set_maxStreakViolations
                       (increment (maxStreakViolations e) violations 1) e) ;;;
   self <- get_this ;;
   violations <- ret (countDoubleRoundRobinViolations self tournament) ;;
   modify_this (λ e, set_doubleRoundRobinViolations
                       (increment (doubleRoundRobinViolations e) violations 1) e) ;;;
   self <- get_this ;;
   violations <- lift (countNoRepeatViolations self tournament) ;;
   modify_this (λ e, set_noRepeatViolations
                       (increment (noRepeatViolations e) violations 1) e))%py.

Definition execute : Py unit :=
  (self <- get_this ;;
   loop_py (Z.to_nat (NREPETITIONS self)) execute_repetition ;;;
   saveResults)%py.

(** The permutation drawn by [randomRound] in world [w], and the world it
    leaves. *)
Definition drawn (w : World) : list Z :=
  (shuffle (rand w) (range 0 (NTEAMS (this w)))).1.

Definition after_draw (w : World) : World :=
  {| this := this w; rand := (shuffle (rand w) (range 0 (NTEAMS (this w)))).2 |}.

(** The loop of [execute], before the results are saved. *)
Definition execute_loop : Py unit :=
  (self <- get_this ;;
   loop_py (Z.to_nat (NREPETITIONS self)) execute_repetition)%py.

(** The configurations on which a repetition cannot fail. *)
Definition well_configured (w : World) : Prop :=
  2 ≤ NTEAMS (this w) ∧ Z.even (NTEAMS (this w)) = true ∧
  NROUNDS (this w) = 2 * (NTEAMS (this w) - 1).

(** [random.seed(a)] sets the state of the random source. *)
Variable seed : Z → rng.

Definition random_seed (a : Z) : Py unit :=
  λ w, (Ok tt, {| this := this w; rand := seed a |}).

Definition executeExperiment : Py Experiment :=
  (random_seed 1 ;;;
   execute ;;;
   get_this)%py.

End WithRandomSource.

Arguments World : clear implicits.
Arguments Py : clear implicits.

(** ** The reduction at the end of [main] *)

Definition experiment_results (exp : Experiment) : gmap string (gmap Z Z) :=
  <["doubleRoundRobinViolations" := doubleRoundRobinViolations exp]>
  (<["noRepeatViolations" := noRepeatViolations exp]>
  (<["maxStreakViolations" := maxStreakViolations exp]> ∅)).

(** One pass through the body of the loop over the experiments. *)
Definition reduce_step (all_results : gmap string (gmap string (gmap string (gmap Z Z))))
    (exp : Experiment) : gmap string (gmap string (gmap string (gmap Z Z))) :=
  let streak_results :=
    default ∅ (all_results !! ("maxStreak=" +:+ pretty (MAXSTREAK exp))) in
  let streak_results :=
    <["teams=" +:+ pretty (NTEAMS exp) := experiment_results exp]> streak_results in
  <["maxStreak=" +:+ pretty (MAXSTREAK exp) := streak_results]> all_results.

Definition reduce_results (experiments : list Experiment)
    : gmap string (gmap string (gmap string (gmap Z Z))) :=
  foldl reduce_step ∅ experiments.

(** [range(start, stop, step)] for a positive step. *)
Definition range_step (start stop step : Z) : list Z :=
  (λ i, start + i * step) <$> seqZ 0 ((stop - start + step - 1) / step).

(** The experiments that [main] builds. *)
Definition main_experiments : result (list Experiment) :=
  traverse (λ '(nTeams, maxStreak), Experiment_init 1000 nTeams maxStreak)
    (nTeams ← range_step 4 52 2; maxStreak ← range 1 6; [(nTeams, maxStreak)]).

(** [pool.map(executeExperiment, experiments)]: every experiment runs in a
    worker with a random source of its own, whose state [initial] is replaced
    by the seeding; the results come back in the order of the experiments,
    and the first experiment that raised raises again in [main]. *)
Definition pool_map {rng} (shuffle : rng → list Z → list Z * rng)
    (write_results : Experiment → result unit) (seed : Z → rng)
    (initial : rng) (experiments : list Experiment) : result (list Experiment) :=
  traverse (λ exp, (executeExperiment shuffle write_results seed
                      {| this := exp; rand := initial |}).1)
    experiments.

(** [main] up to its last statement: the aggregate [all_results]. *)
Definition main_all_results {rng} (shuffle : rng → list Z → list Z * rng)
    (write_results : Experiment → result unit) (seed : Z → rng) (initial : rng)
    : result (gmap string (gmap string (gmap string (gmap Z Z)))) :=
  (experiments <- main_experiments ;;
   experiments <- pool_map shuffle write_results seed initial experiments ;;
   Ok (reduce_results experiments))%result.

(** [main].  Its last statement opens the file of all results and dumps the
    aggregate into it; [write_all] is the outcome of that write. *)
Definition main {rng} (shuffle : rng → list Z → list Z * rng)
    (write_results : Experiment → result unit) (seed : Z → rng) (initial : rng)
    (write_all : gmap string (gmap string (gmap string (gmap Z Z))) → result unit)
    : result unit :=
  (all_results <- main_all_results shuffle write_results seed initial ;;
   write_all all_results)%result.

(** ** The fixtures of the specification *)

Definition fixture : list (list (Z * Z)) :=
  [ [(0, 1); (2, 3)]; [(1, 0); (3, 2)];
    [(0, 2); (1, 3)]; [(2, 0); (3, 1)];
    [(0, 3); (2, 1)]; [(3, 0); (1, 2)] ].

(** [lst.insert(i, x)] for an index inside the list. *)
Definition list_insert_at {A} (i : nat) (x : A) (lst : list A) : list A :=
  take i lst ++ x :: drop i lst.

(** The fixture with a copy of round 0 inserted at index 1. *)
Definition mutated_fixture : list (list (Z * Z)) :=
  list_insert_at 1 [(0, 1); (2, 3)] fixture.

(** The three counters, in the order max streak, double round robin, no
    repeat. *)
Definition run_counters (self : Experiment) (tournament : list (list (Z * Z)))
    : result Z * Z * result Z :=
  (countMaxStreakViolations self tournament,
   countDoubleRoundRobinViolations self tournament,
   countNoRepeatViolations self tournament).

(** ** Vocabulary of the specification *)

(** The arithmetic of [gameIdToTeamIds], without the check of the divisor. *)
Definition decode (self : Experiment) (gid : Z) : Z * Z :=
  let host := gid / (NTEAMS self - 1) in
  let guest := gid mod (NTEAMS self - 1) in
  (host, if guest >=? host then guest + 1 else guest).

(** The consecutive pairs of a list: first and second item, third and
    fourth, and so on. *)
Fixpoint pairs_of (lst : list Z) : list (Z * Z) :=
  match lst with
  | a :: b :: lst' => (a, b) :: pairs_of lst'
  | _ => []
  end.

(** The teams of a list of games, host before guest, game after game. *)
Definition teams_of (games : list (Z * Z)) : list Z :=
  games ≫= λ '(host, guest), [host; guest].

(** The number of games of a round in which team [t] plays. *)
Definition appearances (t : Z) (games : list (Z * Z)) : nat :=
  length (filter (λ game, game.1 = t ∨ game.2 = t) games).

(** A game between two different teams of [0, N). *)
Definition valid_game (N : Z) (game : Z * Z) : Prop :=
  0 ≤ game.1 < N ∧ 0 ≤ game.2 < N ∧ game.1 ≠ game.2.

(** A round is a perfect matching of the teams of [0, N). *)
Definition perfect_matching (N : Z) (round : list (Z * Z)) : Prop :=
  Z.of_nat (length round) = N / 2 ∧ teams_of round ≡ₚ range 0 N.

(** Sums over a list of integers, to read the accumulating loops. *)
Definition Zsum {A} (f : A → Z) (lst : list A) : Z :=
  foldr (λ x acc, f x + acc) 0 lst.

(** The number of occurrences of [key] in a list. *)
Definition occurrences `{EqDecision K} (key : K) (lst : list K) : Z :=
  Zsum (λ x, if decide (x = key) then 1 else 0) lst.

(** The occurrences of all directed pairs, summed the way the counter walks
    them. *)
Definition pair_total (N : Z) (games : list (Z * Z)) : Z :=
  Zsum (λ host, Zsum (λ guest,
      occurrences (host, guest) games + occurrences (guest, host) games)
    (range (host + 1) N))
  (range 0 N).

(** The sum of the frequencies of a histogram. *)
Definition hist_total (h : gmap Z Z) : Z :=
  map_fold (λ _ freq acc, freq + acc) 0 h.

(** The slot of the aggregate that an experiment is written to. *)
Definition slot (exp : Experiment) : Z * Z := (MAXSTREAK exp, NTEAMS exp).

(** The frequency of a violation count in one histogram of the aggregate. *)
Definition aggregate_frequency
    (all_results : gmap string (gmap string (gmap string (gmap Z Z))))
    (threshold teams counter : string) (violations : Z) : option Z :=
  streak_results ← all_results !! threshold;
  results ← streak_results !! teams;
  histogram ← results !! counter;
  histogram !! violations.

(** The scan of one round against the next one, as in the inner loop. *)
Definition scan_round (nextRound currentRound : list (Z * Z)) (violations : Z) : Z :=
  foldl (λ violations '(host, guest),
      let violations :=
        if bool_decide ((host, guest) ∈ nextRound) then violations + 1 else violations in
      let violations :=
        if bool_decide ((guest, host) ∈ nextRound) then violations + 1 else violations in
      violations)
    violations currentRound.

(** A game between two teams of [0, N), possibly the same one. *)
Definition in_range_game (N : Z) (game : Z * Z) : Prop :=
  0 ≤ game.1 < N ∧ 0 ≤ game.2 < N.

#[local] Instance in_range_game_dec N game : Decision (in_range_game N game).
Proof. unfold in_range_game. apply _. Defined.

(** The initial streaks, and the body of the inner loop. *)
Definition streak_init (N : Z) : gmap Z (Z * Z) :=
  foldl (λ d team, <[team := (0, 0)]> d) ∅ (range 0 N).

Definition streak_step (T : Z)
    : Z * gmap Z (Z * Z) → Z * Z → result (Z * gmap Z (Z * Z)) :=
  λ '(violations, streak) '(host, guest),
  ('(home, away) <- dict_getitem streak host ;;
   let violations := if home + 1 >? T then violations + 1 else violations in
   let streak := <[host := (home + 1, 0)]> streak in
   '(home, away) <- dict_getitem streak guest ;;
   let violations := if away + 1 >? T then violations + 1 else violations in
   let streak := <[guest := (0, away + 1)]> streak in
   Ok (violations, streak))%result.

(** The streaks are those of the teams of [0, N) and are never negative. *)
Definition streak_wf (N : Z) (streak : gmap Z (Z * Z)) : Prop :=
  (∀ team, is_Some (streak !! team) ↔ 0 ≤ team < N) ∧
  (∀ team home away, streak !! team = Some (home, away) → 0 ≤ home ∧ 0 ≤ away).

(** Two objects with the same configuration: only the histograms may
    differ. *)
Definition same_config (e e' : Experiment) : Prop :=
  NREPETITIONS e = NREPETITIONS e' ∧ NTEAMS e = NTEAMS e' ∧
  NROUNDS e = NROUNDS e' ∧ NGAMES e = NGAMES e' ∧
  NGAMESPERROUND e = NGAMESPERROUND e' ∧ MAXSTREAK e = MAXSTREAK e'.

(** The keys of a histogram satisfy [P] and its frequencies are positive. *)
Definition hist_keys (P : Z → Prop) (h : gmap Z Z) : Prop :=
  map_Forall (λ key freq, P key ∧ 1 ≤ freq) h.

(** What holds of the object between two repetitions, for N teams. *)
Definition recorded {rng} (N : Z) (w : World rng) : Prop :=
  NTEAMS (this w) = N ∧ NROUNDS (this w) = 2 * (N - 1) ∧
  hist_keys (λ key, 0 ≤ key ≤ 2 * (N * (N - 1))) (maxStreakViolations (this w)) ∧
  hist_keys (λ key, 0 ≤ key ∧ Z.even key = true) (doubleRoundRobinViolations (this w)) ∧
  hist_keys (λ key, 0 ≤ key ≤ (2 * N - 3) * (N / 2)) (noRepeatViolations (this w)).

(** The histogram after [n] repetitions that all counted 0. *)
Definition tally (n : Z) : gmap Z Z :=
  if decide (1 ≤ n) then {[0 := n]} else ∅.

(** The three histograms stored in the aggregate for a threshold and a team
    count. *)
Definition aggregate_results
    (all_results : gmap string (gmap string (gmap string (gmap Z Z))))
    (threshold teams : Z) : option (gmap string (gmap Z Z)) :=
  streak_results ← all_results !! ("maxStreak=" +:+ pretty threshold);
  streak_results !! ("teams=" +:+ pretty teams).

(** The threshold and team count of every slot that [main] fills. *)
Definition main_slots : list (Z * Z) :=
  nTeams ← range_step 4 52 2; maxStreak ← range 1 6; [(maxStreak, nTeams)].

(** An object as the constructor leaves it, for 1000 repetitions and an even
    number of teams. *)
Definition fresh_experiment (exp : Experiment) : Prop :=
  NREPETITIONS exp = 1000 ∧ 2 ≤ NTEAMS exp ∧ Z.even (NTEAMS exp) = true ∧
  NROUNDS exp = 2 * (NTEAMS exp - 1) ∧
  maxStreakViolations exp = ∅ ∧ doubleRoundRobinViolations exp = ∅ ∧
  noRepeatViolations exp = ∅.

#[local] Instance fresh_experiment_dec exp : Decision (fresh_experiment exp).
Proof. unfold fresh_experiment. apply _. Defined.

(** What [executeExperiment] makes of a fresh experiment. *)
Definition completed_from (exp exp' : Experiment) : Prop :=
  slot exp' = slot exp ∧
  hist_total (maxStreakViolations exp') = 1000 ∧
  hist_total (doubleRoundRobinViolations exp') = 1000 ∧
  hist_total (noRepeatViolations exp') = 1000.

(** ** Concrete instances *)

(** A random source to run the program on: it reverses the list it is given. *)
Definition reversing_shuffle (s : unit) (lst : list Z) : list Z * unit :=
  (reverse lst, s).

(** A file system in which every results file can be written, and one in
    which none can. *)
Definition written (exp : Experiment) : result unit := Ok tt.

Definition unwritable (exp : Experiment) : result unit := Raise OSError.

(** The object left by [execute] on a fresh experiment, run on the reversing
    random source with results files that can be written. *)
Definition completed (R N T : Z) : option Experiment :=
  match Experiment_init R N T with
  | Ok self =>
      match execute reversing_shuffle written {| this := self; rand := tt |} with
      | (Ok _, w') => Some (this w')
      | (Raise _, _) => None
      end
  | Raise _ => None
  end.

(** The object built by [Experiment(repetitions=1000, nTeams=4, maxStreak=3)]
    and the one built for 6 teams. *)
Definition four_teams : Experiment :=
  {| NREPETITIONS := 1000; NTEAMS := 4; NROUNDS := 6; NGAMES := 12;
     NGAMESPERROUND := 2; MAXSTREAK := 3; maxStreakViolations := ∅;
     doubleRoundRobinViolations := ∅; noRepeatViolations := ∅ |}.

Definition six_teams : Experiment :=
  {| NREPETITIONS := 1000; NTEAMS := 6; NROUNDS := 10; NGAMES := 30;
     NGAMESPERROUND := 3; MAXSTREAK := 3; maxStreakViolations := ∅;
     doubleRoundRobinViolations := ∅; noRepeatViolations := ∅ |}.

(** The 4-team object with the reversing random source. *)
Definition four_teams_world : World unit := {| this := four_teams; rand := tt |}.

(** The objects built by [Experiment(repetitions=1000, nTeams=4, maxStreak=0)],
    by [Experiment(repetitions=1000, nTeams=3, maxStreak=3)] and by
    [Experiment(repetitions=5, nTeams=0, maxStreak=3)]. *)
Definition four_teams_strict : Experiment :=
  {| NREPETITIONS := 1000; NTEAMS := 4; NROUNDS := 6; NGAMES := 12;
     NGAMESPERROUND := 2; MAXSTREAK := 0; maxStreakViolations := ∅;
     doubleRoundRobinViolations := ∅; noRepeatViolations := ∅ |}.

Definition three_teams : Experiment :=
  {| NREPETITIONS := 1000; NTEAMS := 3; NROUNDS := 4; NGAMES := 6;
     NGAMESPERROUND := 1; MAXSTREAK := 3; maxStreakViolations := ∅;
     doubleRoundRobinViolations := ∅; noRepeatViolations := ∅ |}.

Definition no_teams : Experiment :=
  {| NREPETITIONS := 5; NTEAMS := 0; NROUNDS := -2; NGAMES := 0;
     NGAMESPERROUND := 0; MAXSTREAK := 3; maxStreakViolations := ∅;
     doubleRoundRobinViolations := ∅; noRepeatViolations := ∅ |}.

(** Two outcomes of the true division in [evaluate]: a quotient that is
    returned, kept as the fraction of its operands, and a quotient too large
    for a float. *)
Definition fraction (a b : Z) : result (Z * Z) := Ok (a, b).

Definition too_large (a b : Z) : result (Z * Z) := Raise OverflowError.

(** The first three rounds of the fixture. *)
Definition half_fixture : list (list (Z * Z)) :=
  [ [(0, 1); (2, 3)]; [(1, 0); (3, 2)]; [(0, 2); (1, 3)] ].

(** A seeding for the reversing random source, which has one state only. *)
Definition unit_seed (a : Z) : unit := tt.

(** The object built by [Experiment(repetitions=2, nTeams=4, maxStreak=3)]. *)
Definition two_repetitions : Experiment :=
  {| NREPETITIONS := 2; NTEAMS := 4; NROUNDS := 6; NGAMES := 12;
     NGAMESPERROUND := 2; MAXSTREAK := 3; maxStreakViolations := ∅;
     doubleRoundRobinViolations := ∅; noRepeatViolations := ∅ |}.

(** * Verification *)

(** ** Construction *)

Lemma Experiment_init_Ok R N T self :
  Experiment_init R N T = Ok self →
  N ≠ 1 ∧ NREPETITIONS self = R ∧ NTEAMS self = N ∧ NROUNDS self = 2 * (N - 1) ∧
  MAXSTREAK self = T ∧ maxStreakViolations self = ∅ ∧
  doubleRoundRobinViolations self = ∅ ∧ noRepeatViolations self = ∅.
Proof.
  unfold Experiment_init, floordiv. case_decide as Hz; simpl; [discriminate|].
  intros [= <-]. simpl. repeat split; try done. lia.
Qed.

Lemma Experiment_init_total R N T :
  N ≠ 1 → ∃ self, Experiment_init R N T = Ok self.
Proof.
  intros HN. unfold Experiment_init, floordiv.
  case_decide; [lia|]. simpl. eauto.
Qed.

(** ** The game codec *)

Section Codec.
Variable self : Experiment.
Hypothesis two_teams : 2 ≤ NTEAMS self.

Lemma teamIdsToGameId_range host guest :
  0 ≤ host < NTEAMS self → 0 ≤ guest < NTEAMS self → host ≠ guest →
  0 ≤ teamIdsToGameId self host guest < NTEAMS self * (NTEAMS self - 1).
Proof using two_teams.
  intros Hh Hg Hne. unfold teamIdsToGameId.
  destruct (Z.gtb_spec guest host); nia.
Qed.

Lemma gameIdToTeamIds_teamIdsToGameId host guest :
  0 ≤ host < NTEAMS self → 0 ≤ guest < NTEAMS self → host ≠ guest →
  gameIdToTeamIds self (teamIdsToGameId self host guest) = Ok (host, guest).
Proof using two_teams.
  intros Hh Hg Hne. unfold gameIdToTeamIds, floordiv, pymod.
  case_decide; [lia|]. simpl.
  set (r := if guest >? host then guest - 1 else guest).
  assert (Hr : 0 ≤ r < NTEAMS self - 1)
    by (unfold r; destruct (Z.gtb_spec guest host); lia).
  assert (Hgid : teamIdsToGameId self host guest = host * (NTEAMS self - 1) + r)
    by (unfold teamIdsToGameId, r; destruct (Z.gtb_spec guest host); lia).
  rewrite Hgid.
  rewrite Z.div_add_l, Z.div_small, Z.add_0_r by lia.
  rewrite Z.add_comm, Z.mod_add, Z.mod_small by lia.
  unfold r. destruct (Z.gtb_spec guest host), (Z.geb_spec (guest - 1) host),
    (Z.geb_spec guest host); f_equal; f_equal; lia.
Qed.

Lemma gameIdToTeamIds_Ok gid :
  0 ≤ gid < NTEAMS self * (NTEAMS self - 1) →
  ∃ host guest, gameIdToTeamIds self gid = Ok (host, guest) ∧
    0 ≤ host < NTEAMS self ∧ 0 ≤ guest < NTEAMS self ∧ host ≠ guest ∧
    teamIdsToGameId self host guest = gid.
Proof using two_teams.
  intros Hgid. unfold gameIdToTeamIds, floordiv, pymod.
  case_decide; [lia|]. simpl.
  set (n1 := NTEAMS self - 1) in *.
  pose proof (Z.div_mod gid n1 ltac:(lia)) as Hdm.
  pose proof (Z.mod_pos_bound gid n1 ltac:(lia)) as Hm.
  assert (0 ≤ gid / n1 < NTEAMS self) as Hq.
  { split; [apply Z.div_pos; lia|]. apply Z.div_lt_upper_bound; lia. }
  eexists _, _. split; [reflexivity|].
  unfold teamIdsToGameId. fold n1.
  destruct (Z.geb_spec (gid mod n1) (gid / n1)).
  - destruct (Z.gtb_spec (gid mod n1 + 1) (gid / n1)); lia.
  - destruct (Z.gtb_spec (gid mod n1) (gid / n1)); lia.
Qed.

Lemma teamIdsToGameId_inj host guest host' guest' :
  0 ≤ host < NTEAMS self → 0 ≤ guest < NTEAMS self → host ≠ guest →
  0 ≤ host' < NTEAMS self → 0 ≤ guest' < NTEAMS self → host' ≠ guest' →
  teamIdsToGameId self host guest = teamIdsToGameId self host' guest' →
  (host, guest) = (host', guest').
Proof using two_teams.
  intros Hh Hg Hne Hh' Hg' Hne' Heq.
  pose proof (gameIdToTeamIds_teamIdsToGameId host guest Hh Hg Hne) as H1.
  pose proof (gameIdToTeamIds_teamIdsToGameId host' guest' Hh' Hg' Hne') as H2.
  rewrite Heq, H2 in H1. congruence.
Qed.
End Codec.

(** C1.  For every even team count N >= 2 the codec is a bijection between
    the ordered pairs (host, guest), host <> guest, of teams in [0, N) and
    the identifiers in [0, N*(N-1)): decoding an encoded pair gives the pair
    back, encoding a decoded identifier gives the identifier back, every
    encoded pair lies in the range, and two different pairs never share an
    identifier. *)
Theorem codec_mutual_inverses (self : Experiment) (N : Z) :
  NTEAMS self = N → Z.even N = true → 2 ≤ N →
  (∀ host guest, 0 ≤ host < N → 0 ≤ guest < N → host ≠ guest →
     0 ≤ teamIdsToGameId self host guest < N * (N - 1) ∧
     gameIdToTeamIds self (teamIdsToGameId self host guest) = Ok (host, guest)) ∧
  (∀ gid, 0 ≤ gid < N * (N - 1) →
     ∃ host guest, gameIdToTeamIds self gid = Ok (host, guest) ∧
       0 ≤ host < N ∧ 0 ≤ guest < N ∧ host ≠ guest ∧
       teamIdsToGameId self host guest = gid) ∧
  (∀ host guest host' guest',
     0 ≤ host < N → 0 ≤ guest < N → host ≠ guest →
     0 ≤ host' < N → 0 ≤ guest' < N → host' ≠ guest' →
     teamIdsToGameId self host guest = teamIdsToGameId self host' guest' →
     (host, guest) = (host', guest')).
Proof.
  intros <- _ HN. split_and!.
  - intros host guest ???. split.
    + by apply teamIdsToGameId_range.
    + by apply gameIdToTeamIds_teamIdsToGameId.
  - intros gid ?. by apply gameIdToTeamIds_Ok.
  - intros host guest host' guest' ???????. by apply (teamIdsToGameId_inj self HN).
Qed.

(** ** Round generation *)

Lemma gameIdToTeamIds_decode self gid :
  NTEAMS self ≠ 1 → gameIdToTeamIds self gid = Ok (decode self gid).
Proof.
  intros HN. unfold gameIdToTeamIds, decode, floordiv, pymod.
  case_decide; [lia|]. done.
Qed.

Lemma decode_teamIdsToGameId self host guest :
  2 ≤ NTEAMS self →
  0 ≤ host < NTEAMS self → 0 ≤ guest < NTEAMS self → host ≠ guest →
  decode self (teamIdsToGameId self host guest) = (host, guest).
Proof.
  intros HN Hh Hg Hne.
  pose proof (gameIdToTeamIds_teamIdsToGameId self HN host guest Hh Hg Hne) as H.
  rewrite gameIdToTeamIds_decode in H by lia. congruence.
Qed.

Lemma traverse_Ok_fmap {A B} (f : A → result B) (g : A → B) (xs : list A) :
  (∀ x, x ∈ xs → f x = Ok (g x)) → traverse f xs = Ok (g <$> xs).
Proof.
  induction xs as [|x xs IH]; intros Hf; [done|].
  simpl. rewrite Hf by left. simpl. rewrite IH; [done|].
  intros y Hy. apply Hf. by right.
Qed.

Lemma list_pair_ind {A} (P : list A → Prop) :
  P [] → (∀ a, P [a]) → (∀ a b l, P l → P (a :: b :: l)) → ∀ l, P l.
Proof.
  intros Hnil Hone Hstep.
  assert (∀ l, P l ∧ ∀ a, P (a :: l)) as Hboth.
  { induction l as [|b l [IH1 IH2]]; split; auto. }
  intros l. apply Hboth.
Qed.

Lemma batched_cons_cons {A} (a b : A) (lst : list A) :
  batched (a :: b :: lst) 2 = [a; b] :: batched lst 2.
Proof. reflexivity. Qed.

Lemma traverse_batched self (lst : list Z) :
  traverse (teamIdsToGameId_star self) (batched lst 2) =
    if Nat.even (length lst)
    then Ok (uncurry (teamIdsToGameId self) <$> pairs_of lst)
    else Raise TypeError.
Proof.
  induction lst as [|a|a b lst IH] using list_pair_ind; [done..|].
  rewrite batched_cons_cons. cbn [traverse teamIdsToGameId_star rbind].
  rewrite IH. cbn [length Nat.even pairs_of].
  by destruct (Nat.even (length lst)).
Qed.

Lemma Nat_even_Z_of_nat (n : nat) : Nat.even n = Z.even (Z.of_nat n).
Proof.
  induction n as [|n IH]; [done|].
  rewrite Nat2Z.inj_succ, Z.even_succ, Nat.even_succ.
  by rewrite <-Z.negb_even, <-Nat.negb_even, IH.
Qed.

Lemma Nat_even_to_nat (N : Z) : 0 ≤ N → Nat.even (Z.to_nat N) = Z.even N.
Proof. intros HN. by rewrite Nat_even_Z_of_nat, Z2Nat.id. Qed.

Lemma length_range a b : length (range a b) = Z.to_nat (b - a).
Proof. apply length_seqZ. Qed.

Lemma elem_of_range a b x : x ∈ range a b ↔ a ≤ x < b.
Proof. unfold range. rewrite elem_of_seqZ. lia. Qed.

Lemma teams_of_pairs_of (lst : list Z) :
  Nat.even (length lst) = true → teams_of (pairs_of lst) = lst.
Proof.
  induction lst as [|a|a b lst IH] using list_pair_ind; [done..|].
  cbn [length Nat.even]. intros He. unfold teams_of in *.
  cbn [pairs_of]. rewrite bind_cons, IH; done.
Qed.

Lemma length_pairs_of (lst : list Z) :
  Nat.even (length lst) = true → (2 * length (pairs_of lst))%nat = length lst.
Proof.
  induction lst as [|a|a b lst IH] using list_pair_ind; [done..|].
  cbn [length Nat.even pairs_of]. intros He. specialize (IH He). lia.
Qed.

Lemma pairs_of_valid (lst : list Z) :
  NoDup lst →
  Forall (λ p, p.1 ∈ lst ∧ p.2 ∈ lst ∧ p.1 ≠ p.2) (pairs_of lst).
Proof.
  induction lst as [|a|a b lst IH] using list_pair_ind; intros Hnd;
    cbn [pairs_of]; [constructor..|].
  apply NoDup_cons in Hnd as [Ha Hnd]. apply NoDup_cons in Hnd as [Hb Hnd].
  constructor; simpl.
  - rewrite !elem_of_cons. split_and!; [by left|by right; left|].
    intros ->. apply Ha. by left.
  - eapply Forall_impl; [by apply IH|]. simpl.
    intros p (? & ? & ?). rewrite !elem_of_cons. auto.
Qed.

Lemma sorted_Permutation lst : sorted lst ≡ₚ lst.
Proof. apply merge_sort_Permutation. Qed.

Lemma sorted_Sorted lst : Sorted Z.le (sorted lst).
Proof. apply (Sorted_merge_sort Z.le). Qed.

Lemma sorted_proper l1 l2 : l1 ≡ₚ l2 → sorted l1 = sorted l2.
Proof.
  intros Hp. apply (Sorted_unique Z.le); [apply sorted_Sorted..|].
  by rewrite !sorted_Permutation.
Qed.

Section RoundGeneration.
Context {rng : Type} (shuffle : rng → list Z → list Z * rng).
Hypothesis shuffle_Permutation : ∀ s lst, (shuffle s lst).1 ≡ₚ lst.

Lemma this_after_draw w : this (after_draw shuffle w) = this w.
Proof. done. Qed.

Lemma length_drawn w : length (drawn shuffle w) = Z.to_nat (NTEAMS (this w)).
Proof using shuffle_Permutation.
  unfold drawn. rewrite shuffle_Permutation, length_range. f_equal. lia.
Qed.

Lemma NoDup_drawn w : NoDup (drawn shuffle w).
Proof using shuffle_Permutation.
  unfold drawn. rewrite shuffle_Permutation. apply NoDup_seqZ.
Qed.

Lemma elem_of_drawn w x : x ∈ drawn shuffle w ↔ 0 ≤ x < NTEAMS (this w).
Proof using shuffle_Permutation.
  unfold drawn. rewrite shuffle_Permutation. apply elem_of_range.
Qed.

Lemma randomRound_unfold w :
  randomRound shuffle w =
    (match traverse (teamIdsToGameId_star (this w)) (batched (drawn shuffle w) 2) with
     | Ok games => Ok (sorted games)
     | Raise e => Raise e
     end, after_draw shuffle w).
Proof.
  unfold randomRound, bind, get_this, shuffled, lift, ret, drawn, after_draw.
  destruct (shuffle _ _) as [lst s]. simpl.
  by destruct (traverse _ _).
Qed.

Lemma randomRound_even w :
  Z.even (NTEAMS (this w)) = true →
  randomRound shuffle w =
    (Ok (sorted (uncurry (teamIdsToGameId (this w)) <$> pairs_of (drawn shuffle w))),
     after_draw shuffle w).
Proof using shuffle_Permutation.
  intros He. rewrite randomRound_unfold, traverse_batched, length_drawn.
  destruct (decide (0 ≤ NTEAMS (this w))) as [HN|HN].
  - by rewrite Nat_even_to_nat, He.
  - by replace (Z.to_nat (NTEAMS (this w))) with 0%nat by lia.
Qed.

Lemma randomRound_odd w :
  0 ≤ NTEAMS (this w) → Z.even (NTEAMS (this w)) = false →
  randomRound shuffle w = (Raise TypeError, after_draw shuffle w).
Proof using shuffle_Permutation.
  intros HN He. rewrite randomRound_unfold, traverse_batched, length_drawn.
  by rewrite Nat_even_to_nat, He.
Qed.

Lemma pairs_of_drawn_valid w :
  Forall (valid_game (NTEAMS (this w))) (pairs_of (drawn shuffle w)).
Proof using shuffle_Permutation.
  eapply Forall_impl; [apply pairs_of_valid, NoDup_drawn|].
  intros p. unfold valid_game. simpl. rewrite !elem_of_drawn. tauto.
Qed.

(** Decoding a generated round gives back the drawn pairs, up to the order
    in which [sorted] leaves the games. *)
Lemma decode_round w :
  2 ≤ NTEAMS (this w) →
  decode (this w) <$> sorted (uncurry (teamIdsToGameId (this w)) <$> pairs_of (drawn shuffle w))
    ≡ₚ pairs_of (drawn shuffle w).
Proof using shuffle_Permutation.
  intros HN. rewrite sorted_Permutation, <-list_fmap_compose.
  assert (decode (this w) ∘ uncurry (teamIdsToGameId (this w)) <$> pairs_of (drawn shuffle w)
          = id <$> pairs_of (drawn shuffle w)) as ->; [|by rewrite list_fmap_id].
  apply Forall_fmap_ext. eapply Forall_impl; [apply pairs_of_drawn_valid|].
  intros [a b] (? & ? & ?); simpl in *. by apply decode_teamIdsToGameId.
Qed.

Lemma randomRound_games w :
  2 ≤ NTEAMS (this w) → Z.even (NTEAMS (this w)) = true →
  ∃ round games,
    randomRound shuffle w = (Ok round, after_draw shuffle w) ∧
    round = sorted (uncurry (teamIdsToGameId (this w)) <$> pairs_of (drawn shuffle w)) ∧
    traverse (gameIdToTeamIds (this w)) round = Ok games ∧
    games ≡ₚ pairs_of (drawn shuffle w).
Proof using shuffle_Permutation.
  intros HN He.
  exists (sorted (uncurry (teamIdsToGameId (this w)) <$> pairs_of (drawn shuffle w))).
  eexists. split_and!.
  - by apply randomRound_even.
  - done.
  - apply traverse_Ok_fmap. intros gid _. apply gameIdToTeamIds_decode. lia.
  - by apply decode_round.
Qed.

Lemma length_pairs_of_drawn w :
  2 ≤ NTEAMS (this w) → Z.even (NTEAMS (this w)) = true →
  Z.of_nat (length (pairs_of (drawn shuffle w))) = NTEAMS (this w) / 2.
Proof using shuffle_Permutation.
  intros HN He.
  pose proof (length_pairs_of (drawn shuffle w)) as Hlen.
  rewrite length_drawn, Nat_even_to_nat in Hlen by lia. specialize (Hlen He).
  apply Z.div_unique_exact; lia.
Qed.

End RoundGeneration.

Lemma appearances_absent t games :
  t ∉ teams_of games → appearances t games = 0%nat.
Proof.
  unfold appearances, teams_of.
  induction games as [|[h g] games IH]; [done|].
  rewrite bind_cons. simpl. rewrite !not_elem_of_cons. intros (Hh & Hg & Hrest).
  rewrite filter_cons_False by (simpl; intros [?|?]; congruence). auto.
Qed.

Lemma appearances_once t games :
  NoDup (teams_of games) → t ∈ teams_of games → appearances t games = 1%nat.
Proof.
  unfold appearances, teams_of.
  induction games as [|[h g] games IH]; [by rewrite elem_of_nil|].
  rewrite bind_cons. simpl.
  intros Hnd Hin. apply NoDup_cons in Hnd as [Hh Hnd].
  apply NoDup_cons in Hnd as [Hg Hnd]. apply not_elem_of_cons in Hh as [Hhg Hh].
  destruct (decide (h = t ∨ g = t)) as [Ht|Ht].
  - rewrite filter_cons_True by done. simpl. f_equal.
    apply (appearances_absent t games). by destruct Ht as [<-| <-].
  - rewrite filter_cons_False by done. apply IH; [done|].
    rewrite !elem_of_cons in Hin. destruct Hin as [->|[->|Hin]]; [| |done].
    + exfalso. apply Ht. by left.
    + exfalso. apply Ht. by right.
Qed.

(** C2.  For every even N >= 2 and every permutation drawn by the shuffle,
    [randomRound] returns a round of exactly N/2 games and, once decoded as
    [randomTournament] does, every team of [0, N) plays in exactly one game
    of the round: the hosts and guests together are a rearrangement of
    [0, N) without repetition. *)
Theorem randomRound_perfect_matching {rng} (shuffle : rng → list Z → list Z * rng)
    (w : World rng) (N : Z) :
  (∀ s lst, (shuffle s lst).1 ≡ₚ lst) →
  NTEAMS (this w) = N → Z.even N = true → 2 ≤ N →
  ∃ round games,
    randomRound shuffle w = (Ok round, after_draw shuffle w) ∧
    traverse (gameIdToTeamIds (this w)) round = Ok games ∧
    Z.of_nat (length round) = N / 2 ∧
    Z.of_nat (length games) = N / 2 ∧
    teams_of games ≡ₚ range 0 N ∧
    ∀ t, 0 ≤ t < N → appearances t games = 1%nat.
Proof.
  intros Hsh <- He HN.
  destruct (randomRound_games shuffle Hsh w HN He) as (round & games & Hr & -> & Hg & Hp).
  assert (teams_of games ≡ₚ range 0 (NTEAMS (this w))) as Hteams.
  { unfold teams_of. rewrite Hp. fold (teams_of (pairs_of (drawn shuffle w))).
    rewrite teams_of_pairs_of; [apply Hsh|].
    rewrite length_drawn, Nat_even_to_nat by (done || lia). done. }
  eexists _, games. split_and!; try done.
  - rewrite sorted_Permutation, length_fmap. by apply length_pairs_of_drawn.
  - rewrite Hp. by apply length_pairs_of_drawn.
  - intros t Ht. apply appearances_once.
    + rewrite Hteams. apply NoDup_seqZ.
    + rewrite Hteams. by apply elem_of_range.
Qed.

(** C8, refuted: there is no team count and no pair of distinct teams (a, b)
    for which the round trip through the codec labels b as host and a as
    guest. *)
Lemma roundtrip_never_swaps :
  ¬ ∃ (self : Experiment) (a b : Z),
      Z.even (NTEAMS self) = true ∧
      0 ≤ a < NTEAMS self ∧ 0 ≤ b < NTEAMS self ∧ a ≠ b ∧
      gameIdToTeamIds self (teamIdsToGameId self a b) = Ok (b, a).
Proof.
  intros (self & a & b & He & Ha & Hb & Hne & Hswap).
  assert (2 ≤ NTEAMS self) as HN.
  { destruct (decide (NTEAMS self = 1)) as [H1|]; [by rewrite H1 in He|lia]. }
  rewrite gameIdToTeamIds_teamIdsToGameId in Hswap by done.
  congruence.
Qed.

(** C8, as the code has it.  For every even N >= 2 the round trip through
    the codec keeps the drawn order: the decoded games of a round are
    exactly the consecutive pairs (a, b) of the drawn permutation, a as host
    and b as guest, rearranged only by the sorting of the identifiers. *)
Theorem randomRound_keeps_draw_order {rng} (shuffle : rng → list Z → list Z * rng)
    (w : World rng) (N : Z) :
  (∀ s lst, (shuffle s lst).1 ≡ₚ lst) →
  NTEAMS (this w) = N → Z.even N = true → 2 ≤ N →
  (∀ a b, (a, b) ∈ pairs_of (drawn shuffle w) →
     gameIdToTeamIds (this w) (teamIdsToGameId (this w) a b) = Ok (a, b)) ∧
  ∃ round games,
    randomRound shuffle w = (Ok round, after_draw shuffle w) ∧
    traverse (gameIdToTeamIds (this w)) round = Ok games ∧
    games ≡ₚ pairs_of (drawn shuffle w).
Proof.
  intros Hsh <- He HN. split.
  - intros a b Hab.
    pose proof (pairs_of_drawn_valid shuffle Hsh w) as Hvalid.
    rewrite Forall_forall in Hvalid. destruct (Hvalid _ Hab) as (? & ? & ?).
    by apply gameIdToTeamIds_teamIdsToGameId.
  - destruct (randomRound_games shuffle Hsh w HN He) as (round & games & Hr & _ & Hg & Hp).
    by exists round, games.
Qed.

(** C10.  For every even N and every permutation drawn, the list of game
    identifiers returned by [randomRound] is nondecreasing, and it is the
    same list for any two draws that cut into the same pairs, whatever the
    order in which the pairs were drawn. *)
Theorem randomRound_sorted {rng} (shuffle : rng → list Z → list Z * rng)
    (w : World rng) (N : Z) :
  (∀ s lst, (shuffle s lst).1 ≡ₚ lst) →
  NTEAMS (this w) = N → Z.even N = true →
  ∃ round,
    randomRound shuffle w = (Ok round, after_draw shuffle w) ∧
    Sorted Z.le round ∧
    ∀ w', this w' = this w →
      pairs_of (drawn shuffle w') ≡ₚ pairs_of (drawn shuffle w) →
      (randomRound shuffle w').1 = Ok round.
Proof.
  intros Hsh <- He. eexists. split_and!.
  - by apply randomRound_even.
  - apply sorted_Sorted.
  - intros w' Hthis Hp. rewrite randomRound_even by (done || by rewrite Hthis).
    simpl. rewrite Hthis. f_equal. apply sorted_proper. by rewrite Hp.
Qed.

(** ** The counters on the fixtures *)

Lemma Experiment_init_eq R N T self :
  Experiment_init R N T = Ok self →
  self = {| NREPETITIONS := R; NTEAMS := N; NROUNDS := 2 * (N - 1);
            NGAMES := N * (N - 1);
            NGAMESPERROUND := N * (N - 1) / (2 * (N - 1));
            MAXSTREAK := T; maxStreakViolations := ∅;
            doubleRoundRobinViolations := ∅; noRepeatViolations := ∅ |}.
Proof.
  unfold Experiment_init, floordiv. case_decide; simpl; [discriminate|].
  by intros [= <-].
Qed.

(** C4, refuted: on the 4-team fixture with threshold 3 the counters do not
    return (0, 0, 0); the no-repeat counter returns 6. *)
Lemma fixture_counters_not_zero :
  ∃ self, Experiment_init 1000 4 3 = Ok self ∧
    countNoRepeatViolations self fixture = Ok 6 ∧
    run_counters self fixture ≠ (Ok 0, 0, Ok 0).
Proof. eexists. split; [reflexivity|]. split; [by vm_compute|]. by vm_compute. Qed.

(** C4, as the code has it.  On the hand-built 4-team tournament with streak
    threshold 3 the max-streak counter returns 0, the double-round-robin
    counter returns 0 and the no-repeat counter returns 6: rounds 0-1, 2-3
    and 4-5 replay the same two pairings with host and guest exchanged, and
    each such game counts once. *)
Theorem fixture_counters R self :
  Experiment_init R 4 3 = Ok self →
  run_counters self fixture = (Ok 0, 0, Ok 6).
Proof. intros ->%Experiment_init_eq. by vm_compute. Qed.

(** C5, refuted: inserting a copy of round 0 at index 1 does not raise the
    no-repeat count of the fixture by 2. *)
Lemma mutated_fixture_not_plus_two :
  ∃ self base mutated,
    Experiment_init 1000 4 3 = Ok self ∧
    countNoRepeatViolations self fixture = Ok base ∧
    countNoRepeatViolations self mutated_fixture = Ok mutated ∧
    mutated ≠ base + 2.
Proof. eexists _, _, _. split_and!; [reflexivity|by vm_compute..|by vm_compute]. Qed.

(** C5, as the code has it.  On the fixture with a copy of round 0 inserted
    at index 1, [countNoRepeatViolations] of a 4-team experiment returns 6,
    the same as on the unmodified fixture: the scan stops after the first
    NROUNDS = 6 rounds of the sequence. *)
Theorem mutated_fixture_no_repeat R T self :
  Experiment_init R 4 T = Ok self →
  countNoRepeatViolations self mutated_fixture = Ok 6 ∧
  countNoRepeatViolations self fixture = Ok 6.
Proof. intros ->%Experiment_init_eq. split; by vm_compute. Qed.

(** ** The double-round-robin counter *)

Lemma foldl_add_Zsum {A} (f : A → Z) (v : Z) (lst : list A) :
  foldl (λ acc x, acc + f x) v lst = v + Zsum f lst.
Proof.
  revert v. induction lst as [|x lst IH]; intros v; simpl; [lia|].
  rewrite IH. unfold Zsum. lia.
Qed.

Lemma foldl_ext {A B} (f g : A → B → A) (a : A) (lst : list B) :
  (∀ a x, f a x = g a x) → foldl f a lst = foldl g a lst.
Proof.
  intros Hfg. revert a. induction lst as [|x lst IH]; intros a; simpl; [done|].
  by rewrite Hfg, IH.
Qed.

Lemma Zsum_ext {A} (f g : A → Z) (lst : list A) :
  (∀ x, x ∈ lst → f x = g x) → Zsum f lst = Zsum g lst.
Proof.
  induction lst as [|x lst IH]; intros Hfg; [done|].
  simpl. rewrite Hfg by left. rewrite IH; [done|].
  intros y Hy. apply Hfg. by right.
Qed.

Lemma Zsum_add {A} (f g : A → Z) (lst : list A) :
  Zsum (λ x, f x + g x) lst = Zsum f lst + Zsum g lst.
Proof. induction lst as [|x lst IH]; simpl; [done|]. rewrite IH. lia. Qed.

Lemma Zsum_even {A} (f g : A → Z) (lst : list A) :
  (∀ x, Z.even (f x) = Z.even (g x)) →
  Z.even (Zsum f lst) = Z.even (Zsum g lst).
Proof.
  intros Hfg. induction lst as [|x lst IH]; simpl; [done|].
  by rewrite !Z.even_add, Hfg, IH.
Qed.

Lemma Zsum_point (a : Z) (v : Z) (lst : list Z) :
  NoDup lst →
  Zsum (λ x, if decide (x = a) then v else 0) lst = if decide (a ∈ lst) then v else 0.
Proof.
  induction 1 as [|x lst Hx Hnd IH].
  - destruct (decide (a ∈ [])) as [Hin|]; [by apply elem_of_nil in Hin|done].
  - simpl. rewrite IH.
    destruct (decide (a ∈ x :: lst)) as [Hin|Hin], (decide (x = a)) as [Heq|Hne],
      (decide (a ∈ lst)) as [Hin'|Hin']; try lia; exfalso;
      revert Hin; rewrite elem_of_cons; subst; intuition congruence.
Qed.

Lemma Zsum_point_range (a v lo hi : Z) :
  Zsum (λ x, if decide (x = a) then v else 0) (range lo hi)
    = if decide (lo ≤ a < hi) then v else 0.
Proof.
  rewrite Zsum_point by apply NoDup_seqZ.
  destruct (decide (a ∈ range lo hi)) as [Hin|Hin]; rewrite elem_of_range in Hin.
  - by rewrite decide_True.
  - by rewrite decide_False.
Qed.

Lemma counter_get_Counter `{Countable K} (lst : list K) (key : K) :
  counter_get (Counter lst) key = occurrences key lst.
Proof.
  unfold Counter.
  assert (∀ c : gmap K Z,
    counter_get (foldl (λ c x, <[x := default 0 (c !! x) + 1]> c) c lst) key
      = counter_get c key + occurrences key lst) as Hgen.
  { induction lst as [|x lst IH]; intros c; simpl.
    - unfold occurrences. simpl. lia.
    - rewrite IH. unfold occurrences, counter_get. simpl.
      destruct (decide (x = key)) as [->|Hne].
      + rewrite lookup_insert_eq. simpl. lia.
      + rewrite lookup_insert_ne by done. lia. }
  rewrite Hgen. unfold counter_get. by rewrite lookup_empty.
Qed.

(** The counter as a double sum over the unordered pairs host < guest. *)
Lemma countDoubleRoundRobinViolations_Zsum self tournament :
  countDoubleRoundRobinViolations self tournament =
    Zsum (λ host, Zsum (λ guest,
        Z.abs (1 - occurrences (host, guest) (flatten tournament)) +
        Z.abs (1 - occurrences (guest, host) (flatten tournament)))
      (range (host + 1) (NTEAMS self)))
    (range 0 (NTEAMS self)).
Proof.
  unfold countDoubleRoundRobinViolations.
  erewrite (foldl_ext _ (λ acc host, acc + _)); last first.
  { intros acc host. 
    erewrite (foldl_ext _ (λ acc guest, acc + _)); last first.
    { intros acc' guest. rewrite !counter_get_Counter, <-Z.add_assoc. reflexivity. }
    apply foldl_add_Zsum. }
  rewrite foldl_add_Zsum. lia.
Qed.

Ltac decide_cases :=
  repeat case_decide; simplify_eq; try lia; try (exfalso; congruence).

Lemma Zsum_zero {A} (f : A → Z) (lst : list A) :
  (∀ x, f x = 0) → Zsum f lst = 0.
Proof. intros Hf. induction lst as [|x lst IH]; simpl; [done|]. rewrite Hf. apply IH. Qed.

Lemma pair_total_nil N : pair_total N [] = 0.
Proof.
  unfold pair_total. apply Zsum_zero. intros host. by apply Zsum_zero.
Qed.

(** A game between two distinct teams of [0, N) is met exactly once by the
    walk over host < guest, in one of its two orientations. *)
Lemma pair_total_singleton N a b :
  0 ≤ a < N → 0 ≤ b < N → a ≠ b → pair_total N [(a, b)] = 1.
Proof.
  intros Ha Hb Hne. unfold pair_total.
  rewrite (Zsum_ext _ (λ host,
    (if decide (host = a) then (if decide (a + 1 ≤ b < N) then 1 else 0) else 0) +
    (if decide (host = b) then (if decide (b + 1 ≤ a < N) then 1 else 0) else 0))).
  - rewrite Zsum_add, !Zsum_point_range. decide_cases.
  - intros host _. rewrite Zsum_add.
    rewrite (Zsum_ext _ (λ guest,
      if decide (guest = b) then (if decide (host = a) then 1 else 0) else 0)).
    2:{ intros guest _. unfold occurrences. simpl. decide_cases. }
    rewrite (Zsum_ext (λ guest, occurrences (guest, host) _) (λ guest,
      if decide (guest = a) then (if decide (host = b) then 1 else 0) else 0)).
    2:{ intros guest _. unfold occurrences. simpl. decide_cases. }
    rewrite !Zsum_point_range. decide_cases.
Qed.

Lemma occurrences_cons `{EqDecision K} (key x : K) (lst : list K) :
  occurrences key (x :: lst) = occurrences key [x] + occurrences key lst.
Proof. unfold occurrences. simpl. lia. Qed.

Lemma pair_total_cons N game games :
  pair_total N (game :: games) = pair_total N [game] + pair_total N games.
Proof.
  unfold pair_total. rewrite <-Zsum_add. apply Zsum_ext. intros host _.
  rewrite <-Zsum_add. apply Zsum_ext. intros guest _.
  rewrite (occurrences_cons (host, guest)), (occurrences_cons (guest, host)). lia.
Qed.

Lemma pair_total_valid N games :
  Forall (valid_game N) games →
  pair_total N games = Z.of_nat (length games).
Proof.
  induction 1 as [|[a b] games (Ha & Hb & Hne) _ IH].
  - apply pair_total_nil.
  - rewrite pair_total_cons, IH, pair_total_singleton by done.
    rewrite length_cons. lia.
Qed.

Lemma Z_even_abs (x : Z) : Z.even (Z.abs x) = Z.even x.
Proof. by destruct x. Qed.

(** The counter and the number of games have the same parity whenever every
    game is between two distinct teams of [0, N). *)
Lemma countDoubleRoundRobinViolations_parity self tournament :
  Forall (valid_game (NTEAMS self)) (flatten tournament) →
  Z.even (countDoubleRoundRobinViolations self tournament)
    = Z.even (Z.of_nat (length (flatten tournament))).
Proof.
  intros Hvalid. rewrite <-(pair_total_valid (NTEAMS self)) by done.
  rewrite countDoubleRoundRobinViolations_Zsum. unfold pair_total.
  apply Zsum_even. intros host. apply Zsum_even. intros guest.
  rewrite !Z.even_add, !Z_even_abs, !Z.even_sub. simpl.
  by destruct (Z.even (occurrences _ _)), (Z.even (occurrences _ _)).
Qed.

Lemma teams_of_cons host guest games :
  teams_of ((host, guest) :: games) = host :: guest :: teams_of games.
Proof. done. Qed.

Lemma NoDup_teams_of_valid games :
  NoDup (teams_of games) →
  Forall (λ game, game.1 ∈ teams_of games ∧ game.2 ∈ teams_of games ∧
                  game.1 ≠ game.2) games.
Proof.
  induction games as [|[h g] games IH]; [constructor|].
  rewrite teams_of_cons. intros Hnd.
  apply NoDup_cons in Hnd as [Hh Hnd]. apply NoDup_cons in Hnd as [Hg Hnd].
  apply not_elem_of_cons in Hh as [Hhg Hh].
  constructor; simpl.
  - rewrite !elem_of_cons. auto.
  - eapply Forall_impl; [by apply IH|]. simpl.
    intros game (? & ? & ?). rewrite !elem_of_cons. auto.
Qed.

Lemma perfect_matching_valid N round :
  perfect_matching N round → Forall (valid_game N) round.
Proof.
  intros [_ Hp].
  eapply Forall_impl; [apply NoDup_teams_of_valid; rewrite Hp; apply NoDup_seqZ|].
  intros game. unfold valid_game. simpl. rewrite Hp, !elem_of_range. tauto.
Qed.

Lemma length_flatten_uniform {A} (k : Z) (lst : list (list A)) :
  Forall (λ sub, Z.of_nat (length sub) = k) lst →
  Z.of_nat (length (flatten lst)) = Z.of_nat (length lst) * k.
Proof.
  unfold flatten. induction 1 as [|sub lst Hk _ IH]; simpl; [done|].
  rewrite length_app. lia.
Qed.

(** C9.  For every even N >= 2 and every tournament of exactly 2*(N-1)
    rounds, each a perfect matching of the teams of [0, N),
    [countDoubleRoundRobinViolations] returns an even number. *)
Theorem countDoubleRoundRobinViolations_even (self : Experiment) (N : Z)
    (tournament : list (list (Z * Z))) :
  NTEAMS self = N → Z.even N = true → 2 ≤ N →
  Z.of_nat (length tournament) = 2 * (N - 1) →
  Forall (perfect_matching N) tournament →
  Z.even (countDoubleRoundRobinViolations self tournament) = true.
Proof.
  intros <- He HN Hlen Hrounds.
  rewrite countDoubleRoundRobinViolations_parity.
  - rewrite (length_flatten_uniform (NTEAMS self / 2)).
    + rewrite Hlen, !Z.even_mul. done.
    + eapply Forall_impl; [done|]. by intros round [? _].
  - apply Forall_concat. eapply Forall_impl; [done|].
    intros round. apply perfect_matching_valid.
Qed.

(** ** Histograms *)

Lemma hist_total_empty : hist_total ∅ = 0.
Proof. apply map_fold_empty. Qed.

Lemma hist_total_insert_fresh (h : gmap Z Z) key freq :
  h !! key = None → hist_total (<[key := freq]> h) = freq + hist_total h.
Proof.
  intros Hfresh. unfold hist_total.
  rewrite map_fold_insert_L; [done| |done]. intros. lia.
Qed.

Lemma hist_total_increment (h : gmap Z Z) key :
  hist_total (increment h key 1) = hist_total h + 1.
Proof.
  unfold increment. destruct (h !! key) as [freq|] eqn:Hkey; simpl.
  - rewrite <-(insert_delete_eq h), hist_total_insert_fresh by apply lookup_delete_eq.
    rewrite <-(insert_delete_id h key freq) at 2 by done.
    rewrite hist_total_insert_fresh by apply lookup_delete_eq. lia.
  - rewrite hist_total_insert_fresh by done. lia.
Qed.

(** ** Loops that cannot fail *)

Lemma for_each_total {A S} (I : S → Prop) (P : A → Prop)
    (body : S → A → result S) (xs : list A) (acc : S) :
  (∀ acc x, I acc → P x → ∃ acc', body acc x = Ok acc' ∧ I acc') →
  I acc → Forall P xs →
  ∃ acc', for_each body acc xs = Ok acc' ∧ I acc'.
Proof.
  intros Hbody Hacc Hxs. revert acc Hacc.
  induction Hxs as [|x xs Hx _ IH]; intros acc Hacc; simpl; [by eauto|].
  destruct (Hbody acc x Hacc Hx) as (acc' & -> & Hacc'). simpl. by apply IH.
Qed.

Lemma streak_init_lookup (teams : list Z) (d : gmap Z (Z * Z)) team :
  team ∈ teams ∨ is_Some (d !! team) →
  is_Some (foldl (λ d team, <[team := (0, 0)]> d) d teams !! team).
Proof.
  revert d. induction teams as [|t teams IH]; intros d; simpl.
  - rewrite elem_of_nil. by intros [[]|?].
  - intros Hin. apply IH. rewrite elem_of_cons in Hin.
    destruct (decide (t = team)) as [->|Hne].
    + right. rewrite lookup_insert_eq. eauto.
    + rewrite lookup_insert_ne by done.
      destruct Hin as [[->|?]|?]; [done|by left|by right].
Qed.

Lemma countMaxStreakViolations_total self tournament :
  Forall (Forall (valid_game (NTEAMS self))) tournament →
  ∃ violations, countMaxStreakViolations self tournament = Ok violations.
Proof.
  intros Hvalid. unfold countMaxStreakViolations.
  set (I := λ st : Z * gmap Z (Z * Z),
              ∀ team, 0 ≤ team < NTEAMS self → is_Some (st.2 !! team)).
  edestruct (for_each_total I (Forall (valid_game (NTEAMS self))))
    as ([violations streak] & -> & _); [| |exact Hvalid|by simpl; eauto].
  - intros st round Hst Hround.
    apply (for_each_total I (valid_game (NTEAMS self))); [|done..].
    clear. intros [violations streak] [host guest] Hst (Hh & Hg & _). simpl in *.
    destruct (Hst host Hh) as [[home away] Hhost]. simpl in Hhost.
    unfold dict_getitem at 1. rewrite Hhost. simpl.
    assert (is_Some (<[host := (home + 1, 0)]> streak !! guest)) as [[home' away'] Hguest].
    { destruct (decide (host = guest)) as [->|Hne].
      - rewrite lookup_insert_eq. eauto.
      - rewrite lookup_insert_ne by done. by apply Hst. }
    unfold dict_getitem. rewrite Hguest. simpl. eexists. split; [done|].
    intros team Hteam. simpl.
    destruct (decide (guest = team)) as [->|Hne1]; [rewrite lookup_insert_eq; eauto|].
    rewrite lookup_insert_ne by done.
    destruct (decide (host = team)) as [->|Hne2]; [rewrite lookup_insert_eq; eauto|].
    rewrite lookup_insert_ne by done. by apply Hst.
  - intros team Hteam. simpl. apply streak_init_lookup. left. by apply elem_of_range.
Qed.

Lemma getitem_Ok {A} (lst : list A) (i : Z) :
  0 ≤ i < Z.of_nat (length lst) → ∃ x, getitem lst i = Ok x.
Proof.
  intros Hi. unfold getitem.
  destruct (Z.ltb_spec i 0); [lia|]. destruct (Z.ltb_spec i 0); [lia|].
  destruct (lookup_lt_is_Some_2 lst (Z.to_nat i)) as [x ->]; [lia|]. eauto.
Qed.

Lemma countNoRepeatViolations_total self (tournament : list (list (Z * Z))) :
  NROUNDS self ≤ Z.of_nat (length tournament) →
  ∃ violations, countNoRepeatViolations self tournament = Ok violations.
Proof.
  intros Hlen. unfold countNoRepeatViolations.
  edestruct (for_each_total (λ _ : Z, True) (λ nr, 1 ≤ nr < NROUNDS self))
    as (violations & -> & _); [| |apply Forall_forall; intros nr; apply elem_of_range|by eauto].
  - intros acc nr _ Hnr.
    destruct (getitem_Ok tournament nr) as [nextRound ->]; [lia|].
    destruct (getitem_Ok tournament (nr - 1)) as [currentRound ->]; [lia|].
    simpl. eauto.
  - done.
Qed.

(** ** Running the experiment *)

Section Execution.
Context {rng : Type} (shuffle : rng → list Z → list Z * rng).
Hypothesis shuffle_Permutation : ∀ s lst, (shuffle s lst).1 ≡ₚ lst.
Variable write_results : Experiment → result unit.

Lemma repeat_py_total {A} (I : World rng → Prop) (P : A → Prop) (m : Py rng A) :
  (∀ w, I w → ∃ x w', m w = (Ok x, w') ∧ I w' ∧ P x) →
  ∀ n w, I w →
    ∃ xs w', repeat_py n m w = (Ok xs, w') ∧ I w' ∧ length xs = n ∧ Forall P xs.
Proof.
  intros Hm. induction n as [|n IH]; intros w Hw; simpl.
  - exists [], w. by repeat split.
  - unfold bind. destruct (Hm w Hw) as (x & w1 & -> & Hw1 & Hx).
    destruct (IH w1 Hw1) as (xs & w2 & -> & Hw2 & Hlen & Hxs).
    exists (x :: xs), w2. unfold ret. simpl. repeat split; auto.
Qed.

Lemma repeat_py_this {A} (m : Py rng A) :
  (∀ w r w', m w = (r, w') → this w' = this w) →
  ∀ n w r w', repeat_py n m w = (r, w') → this w' = this w.
Proof.
  intros Hm. induction n as [|n IH]; intros w r w'; simpl.
  - unfold ret. by intros [= _ <-].
  - unfold bind. destruct (m w) as [[x|e] w1] eqn:Hmw.
    + apply Hm in Hmw. destruct (repeat_py n m w1) as [[xs|e] w2] eqn:Hrep.
      * apply IH in Hrep. unfold ret. intros [= _ <-]. congruence.
      * apply IH in Hrep. intros [= _ <-]. congruence.
    + apply Hm in Hmw. by intros [= _ <-].
Qed.

Lemma randomTournament_this w r w' :
  randomTournament shuffle w = (r, w') → this w' = this w.
Proof.
  unfold randomTournament, bind at 1, get_this. apply repeat_py_this.
  clear. intros w1 r w1'. unfold bind. rewrite randomRound_unfold.
  destruct (traverse _ _); unfold lift; by intros [= _ <-].
Qed.

Lemma randomTournament_total w :
  2 ≤ NTEAMS (this w) → Z.even (NTEAMS (this w)) = true →
  ∃ tournament w',
    randomTournament shuffle w = (Ok tournament, w') ∧ this w' = this w ∧
    length tournament = Z.to_nat (NROUNDS (this w)) ∧
    Forall (Forall (valid_game (NTEAMS (this w)))) tournament.
Proof using shuffle_Permutation.
  intros HN He. unfold randomTournament, bind at 1, get_this.
  apply (repeat_py_total (λ w', this w' = this w)); [|done].
  intros w1 Hw1. unfold bind.
  destruct (randomRound_games shuffle shuffle_Permutation w1)
    as (round & games & -> & _ & Hg & Hp); [by rewrite Hw1..|].
  rewrite Hw1 in Hg. unfold lift. rewrite Hg.
  exists games, (after_draw shuffle w1). split_and!; [done|done|].
  rewrite Hp, <-Hw1. apply pairs_of_drawn_valid, shuffle_Permutation.
Qed.

(** A repetition that returns has recorded one occurrence in each of the
    three histograms and left the configuration alone. *)
Lemma execute_repetition_records w w' :
  execute_repetition shuffle w = (Ok tt, w') →
  hist_total (maxStreakViolations (this w'))
    = hist_total (maxStreakViolations (this w)) + 1 ∧
  hist_total (doubleRoundRobinViolations (this w'))
    = hist_total (doubleRoundRobinViolations (this w)) + 1 ∧
  hist_total (noRepeatViolations (this w'))
    = hist_total (noRepeatViolations (this w)) + 1.
Proof.
  unfold execute_repetition, bind at 1.
  destruct (randomTournament shuffle w) as [[tournament|e] w1] eqn:Hrt; [|done].
  apply randomTournament_this in Hrt.
  unfold bind, get_this, lift, modify_this, ret. simpl.
  destruct (countMaxStreakViolations _ _) as [v1|e]; [|done]. simpl.
  destruct (countNoRepeatViolations _ _) as [v3|e]; [|done]. simpl.
  intros [= <-]. simpl. rewrite !hist_total_increment, Hrt. done.
Qed.

Lemma loop_py_records n w w' :
  loop_py n (execute_repetition shuffle) w = (Ok tt, w') →
  hist_total (maxStreakViolations (this w'))
    = hist_total (maxStreakViolations (this w)) + Z.of_nat n ∧
  hist_total (doubleRoundRobinViolations (this w'))
    = hist_total (doubleRoundRobinViolations (this w)) + Z.of_nat n ∧
  hist_total (noRepeatViolations (this w'))
    = hist_total (noRepeatViolations (this w)) + Z.of_nat n.
Proof.
  revert w. induction n as [|n IH]; intros w; simpl.
  - unfold ret. intros [= <-]. lia.
  - unfold bind. destruct (execute_repetition shuffle w) as [[[]|e] w1] eqn:Hrep; [|done].
    apply execute_repetition_records in Hrep as (H1 & H2 & H3).
    intros (H1' & H2' & H3')%IH. lia.
Qed.

Lemma execute_unfold w :
  execute shuffle write_results w =
    match execute_loop shuffle w with
    | (Ok _, w') => (write_results (this w'), w')
    | (Raise e, w') => (Raise e, w')
    end.
Proof.
  unfold execute, execute_loop, bind, get_this, saveResults, lift.
  by destruct (loop_py _ _ _) as [[[]|e] w1].
Qed.

(** Once the loop has returned, [execute] ends as the write of the results
    does. *)
Lemma execute_outcome w w' :
  execute_loop shuffle w = (Ok tt, w') →
  execute shuffle write_results w = (write_results (this w'), w').
Proof. intros Hloop. by rewrite execute_unfold, Hloop. Qed.

Lemma execute_returns_loop w w' :
  execute shuffle write_results w = (Ok tt, w') →
  execute_loop shuffle w = (Ok tt, w').
Proof.
  rewrite execute_unfold.
  destruct (execute_loop shuffle w) as [[[]|e] w1]; [|done]. by intros [= _ <-].
Qed.

Lemma execute_records w w' :
  execute shuffle write_results w = (Ok tt, w') →
  hist_total (maxStreakViolations (this w'))
    = hist_total (maxStreakViolations (this w)) + Z.of_nat (Z.to_nat (NREPETITIONS (this w))) ∧
  hist_total (doubleRoundRobinViolations (this w'))
    = hist_total (doubleRoundRobinViolations (this w)) + Z.of_nat (Z.to_nat (NREPETITIONS (this w))) ∧
  hist_total (noRepeatViolations (this w'))
    = hist_total (noRepeatViolations (this w)) + Z.of_nat (Z.to_nat (NREPETITIONS (this w))).
Proof.
  intros Hloop%execute_returns_loop. by apply loop_py_records.
Qed.

Lemma execute_repetition_total w :
  well_configured w →
  ∃ w', execute_repetition shuffle w = (Ok tt, w') ∧ well_configured w'.
Proof using shuffle_Permutation.
  intros (HN & He & Hrounds). unfold execute_repetition, bind at 1.
  destruct (randomTournament_total w HN He) as (tournament & w1 & -> & Hthis & Hlen & Hvalid).
  unfold bind, get_this, lift, modify_this, ret. simpl.
  destruct (countMaxStreakViolations_total (this w1) tournament) as [v1 ->];
    [by rewrite Hthis|]. simpl.
  match goal with |- context [countNoRepeatViolations ?e _] =>
    destruct (countNoRepeatViolations_total e tournament) as [v3 ->] end.
  { simpl. rewrite Hthis, Hlen. lia. }
  simpl. eexists. split; [done|]. unfold well_configured. simpl.
  by rewrite Hthis.
Qed.

Lemma loop_py_total n w :
  well_configured w →
  ∃ w', loop_py n (execute_repetition shuffle) w = (Ok tt, w').
Proof using shuffle_Permutation.
  revert w. induction n as [|n IH]; intros w Hw; simpl.
  - by eexists.
  - unfold bind. destruct (execute_repetition_total w Hw) as (w1 & -> & Hw1).
    by apply IH.
Qed.

Lemma execute_loop_total w :
  well_configured w → ∃ w', execute_loop shuffle w = (Ok tt, w').
Proof using shuffle_Permutation.
  intros Hw. unfold execute_loop, bind, get_this.
  apply loop_py_total, Hw.
Qed.

(** With an odd number of teams the first round cannot be cut into pairs:
    the first repetition raises before anything is recorded. *)
Lemma randomTournament_odd w :
  3 ≤ NTEAMS (this w) → Z.even (NTEAMS (this w)) = false →
  NROUNDS (this w) = 2 * (NTEAMS (this w) - 1) →
  randomTournament shuffle w = (Raise TypeError, after_draw shuffle w).
Proof using shuffle_Permutation.
  intros HN He Hrounds.
  assert (∃ k, Z.to_nat (NROUNDS (this w)) = S k) as [k Hk].
  { exists (Z.to_nat (NROUNDS (this w)) - 1)%nat. lia. }
  unfold randomTournament, bind at 1, get_this. cbv beta iota. rewrite Hk.
  cbn [repeat_py]. unfold bind at 1, bind at 1.
  rewrite randomRound_odd by (done || lia). done.
Qed.

Lemma execute_odd w :
  3 ≤ NTEAMS (this w) → Z.even (NTEAMS (this w)) = false →
  NROUNDS (this w) = 2 * (NTEAMS (this w) - 1) →
  1 ≤ NREPETITIONS (this w) →
  execute shuffle write_results w = (Raise TypeError, after_draw shuffle w).
Proof using shuffle_Permutation.
  intros HN He Hrounds Hreps.
  assert (∃ n, Z.to_nat (NREPETITIONS (this w)) = S n) as [n Hn].
  { exists (Z.to_nat (NREPETITIONS (this w)) - 1)%nat. lia. }
  rewrite execute_unfold.
  unfold execute_loop, bind at 1, get_this. cbv beta iota. rewrite Hn.
  cbn [loop_py]. unfold bind at 1, execute_repetition, bind at 1.
  by rewrite randomTournament_odd.
Qed.

Lemma execute_loop_no_repetitions w :
  NREPETITIONS (this w) ≤ 0 → execute_loop shuffle w = (Ok tt, w).
Proof.
  intros Hreps. unfold execute_loop, bind, get_this.
  by replace (Z.to_nat (NREPETITIONS (this w))) with 0%nat by lia.
Qed.
End Execution.

Lemma reversing_shuffle_Permutation s lst : (reversing_shuffle s lst).1 ≡ₚ lst.
Proof. apply reverse_Permutation. Qed.

(** C3.  For every repetition count R >= 0, whenever [execute] returns on a
    freshly constructed experiment, the frequencies of each of the three
    histograms sum to exactly R.  For an even team count N >= 2 the loop of
    [execute] does complete, with these sums, and [execute] then returns or
    raises as the write of the results does. *)
Theorem execute_histogram_totals {rng} (shuffle : rng → list Z → list Z * rng)
    (write_results : Experiment → result unit)
    (s : rng) (R N T : Z) (self : Experiment) :
  (∀ s lst, (shuffle s lst).1 ≡ₚ lst) →
  Experiment_init R N T = Ok self → 0 ≤ R →
  (∀ w', execute shuffle write_results {| this := self; rand := s |} = (Ok tt, w') →
     hist_total (maxStreakViolations (this w')) = R ∧
     hist_total (doubleRoundRobinViolations (this w')) = R ∧
     hist_total (noRepeatViolations (this w')) = R) ∧
  (Z.even N = true → 2 ≤ N →
     ∃ w',
       execute_loop shuffle {| this := self; rand := s |} = (Ok tt, w') ∧
       execute shuffle write_results {| this := self; rand := s |}
         = (write_results (this w'), w') ∧
       hist_total (maxStreakViolations (this w')) = R ∧
       hist_total (doubleRoundRobinViolations (this w')) = R ∧
       hist_total (noRepeatViolations (this w')) = R).
Proof.
  intros Hsh Hinit HR.
  destruct (Experiment_init_Ok _ _ _ _ Hinit)
    as (_ & Hreps & Hteams & Hrounds & _ & Hh1 & Hh2 & Hh3).
  split.
  - intros w' (H1 & H2 & H3)%execute_records. simpl in *.
    rewrite Hh1, Hh2, Hh3, Hreps, hist_total_empty in *. lia.
  - intros He HN.
    destruct (execute_loop_total shuffle Hsh {| this := self; rand := s |}) as [w' Hloop].
    { unfold well_configured. simpl. by rewrite Hteams, Hrounds. }
    exists w'. split; [done|]. split; [by apply execute_outcome|].
    destruct (loop_py_records shuffle _ _ _ Hloop) as (H1 & H2 & H3). simpl in *.
    rewrite Hh1, Hh2, Hh3, Hreps, hist_total_empty in *. lia.
Qed.

(** C6, refuted: a configuration with a negative threshold is not rejected,
    the run completes and records its histograms; a configuration with zero
    repetitions is not rejected either.  (Both with results files that can
    be written.) *)
Lemma invalid_configuration_not_rejected :
  (∃ self w',
     Experiment_init 1 4 (-1) = Ok self ∧
     execute reversing_shuffle written {| this := self; rand := tt |} = (Ok tt, w') ∧
     maxStreakViolations (this w') !! 24 = Some 1) ∧
  (∃ self w',
     Experiment_init 0 4 3 = Ok self ∧
     execute reversing_shuffle written {| this := self; rand := tt |} = (Ok tt, w')).
Proof.
  split; eexists _, _.
  - split_and!; [reflexivity|vm_compute; reflexivity|by vm_compute].
  - split; [reflexivity|vm_compute; reflexivity].
Qed.

(** C6, as the code has it.  Nothing is checked up front.  A team count of 1
    fails in the constructor with a division by zero.  An odd team count
    N >= 3 with at least one repetition fails with a type error while the
    first round of the first repetition is generated, and the three
    histograms are still empty then.  A configuration with a non-positive
    repetition count is accepted: the loop of [execute] does nothing, and
    [execute] goes on to save the three empty histograms, returning or
    raising as that write does.  Any threshold, negative or not, is
    accepted: with an even team count N >= 2 the loop of [execute]
    completes, and [execute] returns or raises as the write of the results
    does. *)
Theorem configuration_checks {rng} (shuffle : rng → list Z → list Z * rng)
    (write_results : Experiment → result unit) (s : rng) (R N T : Z) :
  (∀ s lst, (shuffle s lst).1 ≡ₚ lst) →
  (N = 1 → Experiment_init R N T = Raise ZeroDivisionError) ∧
  (3 ≤ N → Z.even N = false → 1 ≤ R →
     ∃ self w',
       Experiment_init R N T = Ok self ∧
       execute shuffle write_results {| this := self; rand := s |}
         = (Raise TypeError, w') ∧
       this w' = self ∧
       maxStreakViolations (this w') = ∅ ∧
       doubleRoundRobinViolations (this w') = ∅ ∧
       noRepeatViolations (this w') = ∅) ∧
  (N ≠ 1 → R ≤ 0 →
     ∃ self,
       Experiment_init R N T = Ok self ∧
       execute_loop shuffle {| this := self; rand := s |}
         = (Ok tt, {| this := self; rand := s |}) ∧
       execute shuffle write_results {| this := self; rand := s |}
         = (write_results self, {| this := self; rand := s |}) ∧
       maxStreakViolations self = ∅ ∧
       doubleRoundRobinViolations self = ∅ ∧
       noRepeatViolations self = ∅) ∧
  (2 ≤ N → Z.even N = true →
     ∃ self w',
       Experiment_init R N T = Ok self ∧
       execute_loop shuffle {| this := self; rand := s |} = (Ok tt, w') ∧
       execute shuffle write_results {| this := self; rand := s |}
         = (write_results (this w'), w')).
Proof.
  intros Hsh. split_and!.
  - intros ->. done.
  - intros HN He HR.
    destruct (Experiment_init_total R N T) as [self Hinit]; [lia|].
    destruct (Experiment_init_Ok _ _ _ _ Hinit)
      as (_ & Hreps & Hteams & Hrounds & _ & Hh1 & Hh2 & Hh3).
    exists self, (after_draw shuffle {| this := self; rand := s |}).
    split_and!; try done.
    apply execute_odd; simpl; [done|lia|congruence|congruence|lia].
  - intros HN HR.
    destruct (Experiment_init_total R N T) as [self Hinit]; [lia|].
    destruct (Experiment_init_Ok _ _ _ _ Hinit)
      as (_ & Hreps & Hteams & Hrounds & _ & Hh1 & Hh2 & Hh3).
    assert (execute_loop shuffle {| this := self; rand := s |}
            = (Ok tt, {| this := self; rand := s |})) as Hloop
      by (apply execute_loop_no_repetitions; simpl; lia).
    exists self. split_and!; try done.
    by rewrite (execute_outcome shuffle write_results _ _ Hloop).
  - intros HN He.
    destruct (Experiment_init_total R N T) as [self Hinit]; [lia|].
    destruct (Experiment_init_Ok _ _ _ _ Hinit)
      as (_ & Hreps & Hteams & Hrounds & _).
    destruct (execute_loop_total shuffle Hsh {| this := self; rand := s |}) as [w' Hw'].
    { unfold well_configured. simpl. by rewrite Hteams, Hrounds. }
    exists self, w'. split_and!; [done..|]. by apply execute_outcome.
Qed.

(** ** The reduction of the results *)

Lemma reduce_step_comm all_results exp1 exp2 :
  slot exp1 ≠ slot exp2 →
  reduce_step (reduce_step all_results exp1) exp2
    = reduce_step (reduce_step all_results exp2) exp1.
Proof.
  intros Hslot. unfold reduce_step.
  destruct (decide (MAXSTREAK exp1 = MAXSTREAK exp2)) as [Hs|Hs].
  - assert (NTEAMS exp1 ≠ NTEAMS exp2) as Ht
      by (intros Ht; apply Hslot; unfold slot; congruence).
    rewrite Hs, !lookup_insert_eq, !insert_insert_eq. simpl.
    f_equal. apply insert_insert_ne. intros Heq. by simplify_eq.
  - assert ("maxStreak=" +:+ pretty (MAXSTREAK exp1)
            ≠ "maxStreak=" +:+ pretty (MAXSTREAK exp2)) as Hk
      by (intros Heq; by simplify_eq).
    rewrite !lookup_insert_ne by done. by apply insert_insert_ne.
Qed.

Lemma foldl_reduce_step_Permutation exps exps' :
  exps ≡ₚ exps' → NoDup (slot <$> exps) →
  ∀ all_results, foldl reduce_step all_results exps = foldl reduce_step all_results exps'.
Proof.
  induction 1 as [|exp exps exps' Hp IH|exp1 exp2 exps|exps1 exps2 exps3 Hp1 IH1 Hp2 IH2];
    intros Hnd all_results; simpl.
  - done.
  - apply IH. rewrite fmap_cons in Hnd. by apply NoDup_cons in Hnd as [_ ?].
  - rewrite reduce_step_comm; [done|].
    rewrite !fmap_cons in Hnd. apply NoDup_cons in Hnd as [Hin _].
    intros Heq. apply Hin. rewrite Heq. by left.
  - rewrite IH1 by done. apply IH2. by rewrite <-Hp1.
Qed.

(** C7, refuted: two completed experiments with the same threshold and team
    count but different repetition counts are reduced to different
    aggregates in the two orders. *)
Lemma reduce_results_order_dependent :
  ∃ exp1 exp2,
    completed 1 4 3 = Some exp1 ∧ completed 2 4 3 = Some exp2 ∧
    [exp2; exp1] ≡ₚ [exp1; exp2] ∧
    aggregate_frequency (reduce_results [exp1; exp2])
      "maxStreak=3" "teams=4" "maxStreakViolations" 12 = Some 2 ∧
    aggregate_frequency (reduce_results [exp2; exp1])
      "maxStreak=3" "teams=4" "maxStreakViolations" 12 = Some 1 ∧
    reduce_results [exp1; exp2] ≠ reduce_results [exp2; exp1].
Proof.
  eexists _, _.
  split_and!;
    [vm_compute; reflexivity|vm_compute; reflexivity|apply perm_swap
    |by vm_compute|by vm_compute|].
  intros Heq.
  apply (f_equal (λ m, aggregate_frequency m "maxStreak=3" "teams=4"
                         "maxStreakViolations" 12)) in Heq.
  vm_compute in Heq. discriminate.
Qed.

(** C7, as the code has it.  For every list of completed experiments that
    are written to pairwise different slots (threshold, team count) and for
    every permutation of that list, the reduction gives the same aggregate. *)
Theorem reduce_results_order_independent (exps exps' : list Experiment) :
  NoDup (slot <$> exps) → exps ≡ₚ exps' →
  reduce_results exps = reduce_results exps'.
Proof.
  intros Hnd Hp. unfold reduce_results. by apply foldl_reduce_step_Permutation.
Qed.

(** ** The theorems at concrete inputs *)

Lemma codec_mutual_inverses_witness :
  NTEAMS four_teams = 4 ∧ Z.even 4 = true ∧ 2 ≤ 4 ∧
  ((∀ host guest, 0 ≤ host < 4 → 0 ≤ guest < 4 → host ≠ guest →
      0 ≤ teamIdsToGameId four_teams host guest < 4 * (4 - 1) ∧
      gameIdToTeamIds four_teams (teamIdsToGameId four_teams host guest)
        = Ok (host, guest)) ∧
   (∀ gid, 0 ≤ gid < 4 * (4 - 1) →
      ∃ host guest, gameIdToTeamIds four_teams gid = Ok (host, guest) ∧
        0 ≤ host < 4 ∧ 0 ≤ guest < 4 ∧ host ≠ guest ∧
        teamIdsToGameId four_teams host guest = gid) ∧
   (∀ host guest host' guest',
      0 ≤ host < 4 → 0 ≤ guest < 4 → host ≠ guest →
      0 ≤ host' < 4 → 0 ≤ guest' < 4 → host' ≠ guest' →
      teamIdsToGameId four_teams host guest = teamIdsToGameId four_teams host' guest' →
      (host, guest) = (host', guest'))).
Proof.
  split; [reflexivity|]. split; [reflexivity|]. split; [lia|].
  apply (codec_mutual_inverses four_teams 4); [reflexivity|reflexivity|lia].
Defined.

Lemma randomRound_perfect_matching_witness :
  (∀ s lst, (reversing_shuffle s lst).1 ≡ₚ lst) ∧
  NTEAMS (this four_teams_world) = 4 ∧ Z.even 4 = true ∧ 2 ≤ 4 ∧
  ∃ round games,
    randomRound reversing_shuffle four_teams_world
      = (Ok round, after_draw reversing_shuffle four_teams_world) ∧
    traverse (gameIdToTeamIds (this four_teams_world)) round = Ok games ∧
    Z.of_nat (length round) = 4 / 2 ∧
    Z.of_nat (length games) = 4 / 2 ∧
    teams_of games ≡ₚ range 0 4 ∧
    ∀ t, 0 ≤ t < 4 → appearances t games = 1%nat.
Proof.
  split; [exact reversing_shuffle_Permutation|].
  split; [reflexivity|]. split; [reflexivity|]. split; [lia|].
  apply (randomRound_perfect_matching reversing_shuffle four_teams_world 4);
    [exact reversing_shuffle_Permutation|reflexivity|reflexivity|lia].
Defined.

Lemma execute_histogram_totals_witness :
  (∀ s lst, (reversing_shuffle s lst).1 ≡ₚ lst) ∧
  Experiment_init 1000 4 3 = Ok four_teams ∧ 0 ≤ 1000 ∧
  (∀ w', execute reversing_shuffle written four_teams_world = (Ok tt, w') →
     hist_total (maxStreakViolations (this w')) = 1000 ∧
     hist_total (doubleRoundRobinViolations (this w')) = 1000 ∧
     hist_total (noRepeatViolations (this w')) = 1000) ∧
  (Z.even 4 = true → 2 ≤ 4 →
     ∃ w', execute_loop reversing_shuffle four_teams_world = (Ok tt, w') ∧
       execute reversing_shuffle written four_teams_world = (written (this w'), w') ∧
       hist_total (maxStreakViolations (this w')) = 1000 ∧
       hist_total (doubleRoundRobinViolations (this w')) = 1000 ∧
       hist_total (noRepeatViolations (this w')) = 1000).
Proof.
  split; [exact reversing_shuffle_Permutation|].
  split; [reflexivity|]. split; [lia|].
  apply (execute_histogram_totals reversing_shuffle written tt 1000 4 3 four_teams);
    [exact reversing_shuffle_Permutation|reflexivity|lia].
Defined.

Lemma fixture_counters_witness :
  Experiment_init 1000 4 3 = Ok four_teams ∧
  run_counters four_teams fixture = (Ok 0, 0, Ok 6).
Proof.
  split; [reflexivity|]. apply (fixture_counters 1000 four_teams). reflexivity.
Defined.

Lemma mutated_fixture_no_repeat_witness :
  Experiment_init 1000 4 3 = Ok four_teams ∧
  countNoRepeatViolations four_teams mutated_fixture = Ok 6 ∧
  countNoRepeatViolations four_teams fixture = Ok 6.
Proof.
  split; [reflexivity|]. apply (mutated_fixture_no_repeat 1000 3 four_teams). reflexivity.
Defined.

Lemma configuration_checks_witness :
  (∀ s lst, (reversing_shuffle s lst).1 ≡ₚ lst) ∧
  (3 ≤ 3 ∧ Z.even 3 = false ∧ 1 ≤ 1 ∧
   ∃ self w',
     Experiment_init 1 3 (-1) = Ok self ∧
     execute reversing_shuffle unwritable {| this := self; rand := tt |}
       = (Raise TypeError, w') ∧
     this w' = self ∧
     maxStreakViolations (this w') = ∅ ∧
     doubleRoundRobinViolations (this w') = ∅ ∧
     noRepeatViolations (this w') = ∅) ∧
  (4 ≠ 1 ∧ 0 ≤ 0 ∧
   ∃ self,
     Experiment_init 0 4 (-1) = Ok self ∧
     execute_loop reversing_shuffle {| this := self; rand := tt |}
       = (Ok tt, {| this := self; rand := tt |}) ∧
     execute reversing_shuffle unwritable {| this := self; rand := tt |}
       = (unwritable self, {| this := self; rand := tt |}) ∧
     maxStreakViolations self = ∅ ∧
     doubleRoundRobinViolations self = ∅ ∧
     noRepeatViolations self = ∅) ∧
  (2 ≤ 4 ∧ Z.even 4 = true ∧
   ∃ self w',
     Experiment_init 1 4 (-1) = Ok self ∧
     execute_loop reversing_shuffle {| this := self; rand := tt |} = (Ok tt, w') ∧
     execute reversing_shuffle written {| this := self; rand := tt |}
       = (written (this w'), w')).
Proof.
  split; [exact reversing_shuffle_Permutation|].
  split; [|split].
  - split; [lia|]. split; [reflexivity|]. split; [lia|].
    apply (configuration_checks reversing_shuffle unwritable tt 1 3 (-1)
             reversing_shuffle_Permutation); [lia|reflexivity|lia].
  - split; [lia|]. split; [lia|].
    apply (configuration_checks reversing_shuffle unwritable tt 0 4 (-1)
             reversing_shuffle_Permutation); lia.
  - split; [lia|]. split; [reflexivity|].
    apply (configuration_checks reversing_shuffle written tt 1 4 (-1)
             reversing_shuffle_Permutation); [lia|reflexivity].
Defined.

Lemma reduce_results_order_independent_witness :
  NoDup (slot <$> [four_teams; six_teams]) ∧
  [four_teams; six_teams] ≡ₚ [six_teams; four_teams] ∧
  reduce_results [four_teams; six_teams] = reduce_results [six_teams; four_teams].
Proof.
  assert (NoDup (slot <$> [four_teams; six_teams])) as Hnd by compute_done.
  assert ([four_teams; six_teams] ≡ₚ [six_teams; four_teams]) as Hp by apply perm_swap.
  split; [exact Hnd|]. split; [exact Hp|].
  apply (reduce_results_order_independent _ _ Hnd Hp).
Defined.

Lemma randomRound_keeps_draw_order_witness :
  (∀ s lst, (reversing_shuffle s lst).1 ≡ₚ lst) ∧
  NTEAMS (this four_teams_world) = 4 ∧ Z.even 4 = true ∧ 2 ≤ 4 ∧
  (∀ a b, (a, b) ∈ pairs_of (drawn reversing_shuffle four_teams_world) →
     gameIdToTeamIds (this four_teams_world)
       (teamIdsToGameId (this four_teams_world) a b) = Ok (a, b)) ∧
  ∃ round games,
    randomRound reversing_shuffle four_teams_world
      = (Ok round, after_draw reversing_shuffle four_teams_world) ∧
    traverse (gameIdToTeamIds (this four_teams_world)) round = Ok games ∧
    games ≡ₚ pairs_of (drawn reversing_shuffle four_teams_world).
Proof.
  split; [exact reversing_shuffle_Permutation|].
  split; [reflexivity|]. split; [reflexivity|]. split; [lia|].
  apply (randomRound_keeps_draw_order reversing_shuffle four_teams_world 4);
    [exact reversing_shuffle_Permutation|reflexivity|reflexivity|lia].
Defined.

Lemma countDoubleRoundRobinViolations_even_witness :
  NTEAMS four_teams = 4 ∧ Z.even 4 = true ∧ 2 ≤ 4 ∧
  Z.of_nat (length fixture) = 2 * (4 - 1) ∧
  Forall (perfect_matching 4) fixture ∧
  Z.even (countDoubleRoundRobinViolations four_teams fixture) = true.
Proof.
  assert (Forall (perfect_matching 4) fixture) as Hpm.
  { repeat constructor; compute_done. }
  split; [reflexivity|]. split; [reflexivity|]. split; [lia|].
  split; [reflexivity|]. split; [exact Hpm|].
  apply (countDoubleRoundRobinViolations_even four_teams 4 fixture);
    [reflexivity|reflexivity|lia|reflexivity|exact Hpm].
Defined.

Lemma randomRound_sorted_witness :
  (∀ s lst, (reversing_shuffle s lst).1 ≡ₚ lst) ∧
  NTEAMS (this four_teams_world) = 4 ∧ Z.even 4 = true ∧
  ∃ round,
    randomRound reversing_shuffle four_teams_world
      = (Ok round, after_draw reversing_shuffle four_teams_world) ∧
    Sorted Z.le round ∧
    ∀ w', this w' = this four_teams_world →
      pairs_of (drawn reversing_shuffle w')
        ≡ₚ pairs_of (drawn reversing_shuffle four_teams_world) →
      (randomRound reversing_shuffle w').1 = Ok round.
Proof.
  split; [exact reversing_shuffle_Permutation|].
  split; [reflexivity|]. split; [reflexivity|].
  apply (randomRound_sorted reversing_shuffle four_teams_world 4);
    [exact reversing_shuffle_Permutation|reflexivity|reflexivity].
Defined.

(** * Further properties of the program *)

(** ** The constructor *)

(** X1.  The constructor fails exactly for one team, with a division by
    zero.  For every other team count the object holds 2*(N-1) rounds,
    N*(N-1) games and N // 2 games per round, and for an even N the rounds
    times the games per round are all the games. *)
Theorem Experiment_init_fields (R N T : Z) :
  (N = 1 → Experiment_init R N T = Raise ZeroDivisionError) ∧
  (N ≠ 1 → ∃ self,
     Experiment_init R N T = Ok self ∧
     NROUNDS self = 2 * (N - 1) ∧ NGAMES self = N * (N - 1) ∧
     NGAMESPERROUND self = N / 2 ∧
     (Z.even N = true → NROUNDS self * NGAMESPERROUND self = NGAMES self)).
Proof.
  split; [by intros ->|].
  intros HN. unfold Experiment_init, floordiv. case_decide; [lia|]. simpl.
  eexists. split; [done|]. simpl.
  assert (N * (N - 1) / (2 * (N - 1)) = N / 2) as Hper
    by (apply Z.div_mul_cancel_r; lia).
  split_and!; [done..|].
  intros [k ->]%Z.even_spec. rewrite Hper.
  replace (2 * k / 2) with k by (apply Z.div_unique_exact; lia). lia.
Qed.

(** ** [increment] *)

Lemma hist_total_increment_by (h : gmap Z Z) key inc :
  hist_total (increment h key inc) = hist_total h + inc.
Proof.
  unfold increment. destruct (h !! key) as [freq|] eqn:Hkey; simpl.
  - rewrite <-(insert_delete_eq h), hist_total_insert_fresh by apply lookup_delete_eq.
    rewrite <-(insert_delete_id h key freq) at 2 by done.
    rewrite hist_total_insert_fresh by apply lookup_delete_eq. lia.
  - rewrite hist_total_insert_fresh by done. lia.
Qed.

(** X2.  [increment] adds [inc] to the frequency of [key], counting a
    missing key as 0, leaves every other key alone, and raises the sum of
    the frequencies by [inc]. *)
Theorem increment_lookup_total (dic : gmap Z Z) (key inc : Z) :
  increment dic key inc !! key = Some (default 0 (dic !! key) + inc) ∧
  (∀ other, other ≠ key → increment dic key inc !! other = dic !! other) ∧
  hist_total (increment dic key inc) = hist_total dic + inc.
Proof.
  split_and!.
  - unfold increment. by rewrite lookup_insert_eq.
  - intros other Hne. unfold increment. by rewrite lookup_insert_ne.
  - apply hist_total_increment_by.
Qed.

(** ** The [Statistic] accumulator *)

Lemma Statistic_record_counts (values : list Z) (self : Statistic.Statistic) :
  Statistic.n (foldl Statistic.record self values)
    = Statistic.n self + Z.of_nat (length values) ∧
  Statistic.accumulator (foldl Statistic.record self values)
    = Statistic.accumulator self + Zsum id values.
Proof.
  revert self. induction values as [|v values IH]; intros self; simpl.
  - lia.
  - destruct (IH (Statistic.record self v)) as [-> ->]. simpl. lia.
Qed.

Lemma elem_of_snoc {A} (x : A) (lst : list A) : x ∈ lst ++ [x].
Proof. apply elem_of_app. right. by apply list_elem_of_singleton. Qed.

Lemma elem_of_snoc_l {A} (x y : A) (lst : list A) : y ∈ lst → y ∈ lst ++ [x].
Proof. intros Hy. apply elem_of_app. by left. Qed.

(** X3.  After recording a list of values into a fresh [Statistic], [n] is
    the number of values and [accumulator] their sum; [maximum] is the
    largest value but never below the initial 0; [minimum] is the smallest
    value, and still [inf] when nothing was recorded. *)
Theorem Statistic_record_all (values : list Z) :
  let self := foldl Statistic.record Statistic.init values in
  Statistic.n self = Z.of_nat (length values) ∧
  Statistic.accumulator self = Zsum id values ∧
  (0 ≤ Statistic.maximum self ∧
   Forall (λ v, v ≤ Statistic.maximum self) values ∧
   (Statistic.maximum self = 0 ∨ Statistic.maximum self ∈ values)) ∧
  match Statistic.minimum self with
  | Statistic.inf => values = []
  | Statistic.Finite m => m ∈ values ∧ Forall (λ v, m ≤ v) values
  end.
Proof.
  simpl. split; [|split; [|split]].
  - by destruct (Statistic_record_counts values Statistic.init) as [-> _].
  - by destruct (Statistic_record_counts values Statistic.init) as [_ ->].
  - induction values as [|v values IH] using rev_ind; [by repeat constructor|].
    rewrite foldl_app. simpl. unfold Statistic.max_int.
    destruct IH as (H0 & Hall & Hin).
    destruct (Z.gtb_spec v (Statistic.maximum (foldl Statistic.record Statistic.init values))).
    + split_and!; [lia| |right; apply elem_of_snoc].
      apply Forall_app. split; [|by repeat constructor].
      eapply Forall_impl; [done|]. simpl. lia.
    + split_and!; [done| |destruct Hin; [by left|right; by apply elem_of_snoc_l]].
      apply Forall_app. split; [done|]. repeat constructor. lia.
  - induction values as [|v values IH] using rev_ind; [done|].
    rewrite foldl_app. simpl. unfold Statistic.min_bound.
    destruct (Statistic.minimum (foldl Statistic.record Statistic.init values)) as [m|].
    + destruct IH as [Hin Hall].
      destruct (Z.ltb_spec v m).
      * split; [apply elem_of_snoc|]. apply Forall_app. split; [|by repeat constructor].
        eapply Forall_impl; [done|]. simpl. lia.
      * split; [by apply elem_of_snoc_l|]. apply Forall_app. split; [done|].
        repeat constructor. lia.
    + subst values. split; [apply (elem_of_snoc v [])|]. by repeat constructor.
Qed.

(** X4.  [evaluate] raises a division by zero on a [Statistic] that has
    recorded nothing.  After at least one value it divides the sum of the
    values by their number: when that division returns a quotient,
    [evaluate] returns it with the minimum and the maximum; when it raises
    (an overflow error, for a quotient too large for a float), [evaluate]
    raises the same exception. *)
Theorem Statistic_evaluate {F} (truediv : Z → Z → result F) (values : list Z) :
  let self := foldl Statistic.record Statistic.init values in
  (values = [] → Statistic.evaluate truediv self = Raise ZeroDivisionError) ∧
  (values ≠ [] →
     (∀ q, truediv (Zsum id values) (Z.of_nat (length values)) = Ok q →
        Statistic.evaluate truediv self
          = Ok (q, Statistic.minimum self, Statistic.maximum self)) ∧
     (∀ e, truediv (Zsum id values) (Z.of_nat (length values)) = Raise e →
        Statistic.evaluate truediv self = Raise e)).
Proof.
  simpl. split.
  - by intros ->.
  - intros Hne. unfold Statistic.evaluate.
    destruct (Statistic_record_counts values Statistic.init) as [-> ->]. simpl.
    rewrite decide_False by (destruct values; [done|simpl; lia]).
    rewrite !Z.add_0_l. split; [intros q ->|intros e ->]; done.
Qed.

(** ** [batched] *)

Lemma batched_from_cons {A} (n : nat) (chunk : list A) (x : A) (lst : list A) :
  batched_from n chunk (x :: lst) =
    if (S (length chunk) =? n)%nat
    then reverse (x :: chunk) :: batched_from n [] lst
    else batched_from n (x :: chunk) lst.
Proof. reflexivity. Qed.

Lemma batched_from_concat {A} (n : nat) (chunk lst : list A) :
  (length chunk < n)%nat →
  concat (batched_from n chunk lst) = reverse chunk ++ lst.
Proof.
  revert chunk. induction lst as [|x lst IH]; intros chunk Hlen.
  - destruct chunk; simpl; by rewrite ?app_nil_r.
  - rewrite batched_from_cons.
    destruct (Nat.eqb_spec (S (length chunk)) n) as [Hn|Hn].
    + cbn [concat]. rewrite IH by (simpl; lia).
      rewrite reverse_cons, <-app_assoc. done.
    + rewrite IH by (simpl; lia). rewrite reverse_cons, <-app_assoc. done.
Qed.

Lemma batched_from_sizes {A} (n : nat) (chunk lst : list A) (i : nat) (batch : list A) :
  (length chunk < n)%nat →
  batched_from n chunk lst !! i = Some batch →
  (0 < length batch ≤ n)%nat ∧
  (S i < length (batched_from n chunk lst) → length batch = n)%nat.
Proof.
  revert chunk i. induction lst as [|x lst IH]; intros chunk i Hlen.
  - destruct chunk as [|y chunk]; [done|].
    destruct i; [|done]. simpl. intros [= <-]. rewrite length_reverse. simpl in *. lia.
  - rewrite batched_from_cons.
    destruct (Nat.eqb_spec (S (length chunk)) n) as [Hn|Hn].
    + destruct i as [|i]; cbn [lookup list_lookup length].
      * intros [= <-]. rewrite length_reverse. simpl. lia.
      * intros Hi. destruct (IH [] i) as [H1 H2]; [simpl; lia|done|].
        split; [done|]. intros Hlast. apply H2. lia.
    + apply IH. simpl. lia.
Qed.

(** X5.  For a batch size n >= 1, [batched] cuts the list into consecutive
    batches: joined together they give the list back, no batch is empty or
    longer than n, and every batch but the last has exactly n items. *)
Theorem batched_partition {A} (lst : list A) (n : nat) :
  (1 ≤ n)%nat →
  concat (batched lst n) = lst ∧
  ∀ i batch, batched lst n !! i = Some batch →
    (0 < length batch ≤ n)%nat ∧
    (S i < length (batched lst n) → length batch = n)%nat.
Proof.
  intros Hn. split.
  - unfold batched. by rewrite batched_from_concat by (simpl; lia).
  - intros i batch. apply batched_from_sizes. simpl. lia.
Qed.

(** ** Rounds and tournaments *)

Lemma NoDup_pairs_of (lst : list Z) : NoDup lst → NoDup (pairs_of lst).
Proof.
  induction lst as [|a|a b lst IH] using list_pair_ind; intros Hnd;
    cbn [pairs_of]; [constructor..|].
  apply NoDup_cons in Hnd as [Ha Hnd]. apply NoDup_cons in Hnd as [Hb Hnd].
  apply NoDup_cons. split; [|by apply IH].
  intros Hin. pose proof (pairs_of_valid lst Hnd) as Hvalid.
  rewrite Forall_forall in Hvalid. destruct (Hvalid _ Hin) as (Ha' & _ & _).
  apply Ha. by right.
Qed.

Lemma StronglySorted_le_lt (lst : list Z) :
  StronglySorted Z.le lst → NoDup lst → StronglySorted Z.lt lst.
Proof.
  induction 1 as [|x lst Hsorted IH Hall]; intros Hnd; constructor.
  - apply IH. by apply NoDup_cons in Hnd as [_ ?].
  - apply NoDup_cons in Hnd as [Hx _].
    rewrite Forall_forall in Hall |- *. intros y Hy.
    destruct (decide (x = y)) as [->|]; [done|]. specialize (Hall y Hy). lia.
Qed.

Lemma NoDup_hosts (games : list (Z * Z)) :
  NoDup (teams_of games) → NoDup (games.*1).
Proof.
  induction games as [|[h g] games IH]; [constructor|].
  rewrite teams_of_cons, fmap_cons. intros Hnd.
  apply NoDup_cons in Hnd as [Hh Hnd]. apply NoDup_cons in Hnd as [Hg Hnd].
  apply not_elem_of_cons in Hh as [_ Hh].
  apply NoDup_cons. split; [|by apply IH].
  intros Hin. apply Hh. simpl in Hin.
  apply list_elem_of_fmap in Hin as ([h' g'] & Heq & Hin). simpl in Heq. subst h'.
  pose proof (NoDup_teams_of_valid games Hnd) as Hvalid.
  rewrite Forall_forall in Hvalid. by destruct (Hvalid _ Hin) as (? & _ & _).
Qed.

Section RoundProperties.
Context {rng : Type} (shuffle : rng → list Z → list Z * rng).
Hypothesis shuffle_Permutation : ∀ s lst, (shuffle s lst).1 ≡ₚ lst.

Lemma NoDup_round_ids w :
  2 ≤ NTEAMS (this w) →
  NoDup (uncurry (teamIdsToGameId (this w)) <$> pairs_of (drawn shuffle w)).
Proof using shuffle_Permutation.
  intros HN. apply NoDup_fmap_2_strong.
  - pose proof (pairs_of_drawn_valid shuffle shuffle_Permutation w) as Hvalid.
    rewrite Forall_forall in Hvalid.
    intros [a b] [a' b'] (? & ? & ?)%Hvalid (? & ? & ?)%Hvalid Heq. simpl in *.
    by apply (teamIdsToGameId_inj (this w) HN).
  - apply NoDup_pairs_of, NoDup_drawn, shuffle_Permutation.
Qed.

(** The games that [randomTournament] makes of one round: a perfect
    matching, listed by increasing host. *)
Lemma decoded_round_matching w :
  2 ≤ NTEAMS (this w) → Z.even (NTEAMS (this w)) = true →
  let games := decode (this w) <$>
    sorted (uncurry (teamIdsToGameId (this w)) <$> pairs_of (drawn shuffle w)) in
  perfect_matching (NTEAMS (this w)) games ∧ StronglySorted Z.lt (games.*1).
Proof using shuffle_Permutation.
  intros HN He games.
  assert (games ≡ₚ pairs_of (drawn shuffle w)) as Hp by by apply decode_round.
  assert (teams_of games ≡ₚ range 0 (NTEAMS (this w))) as Hteams.
  { unfold teams_of. rewrite Hp. fold (teams_of (pairs_of (drawn shuffle w))).
    rewrite teams_of_pairs_of; [apply shuffle_Permutation|].
    rewrite length_drawn, Nat_even_to_nat by (done || lia). done. }
  split; [split; [|done]|].
  - rewrite Hp. by apply length_pairs_of_drawn.
  - apply StronglySorted_le_lt.
    + unfold games. rewrite <-list_fmap_compose.
      apply (StronglySorted_fmap _ Z.le Z.le).
      * intros gid gid' Hle. simpl. apply Z.div_le_mono; lia.
      * apply Sorted_StronglySorted; [apply _|apply sorted_Sorted].
    + apply NoDup_hosts. rewrite Hteams. apply NoDup_seqZ.
Qed.
End RoundProperties.

(** X6.  For every even N >= 2 the identifiers returned by [randomRound]
    are strictly increasing, so no game occurs twice in a round, and each
    lies in [0, N*(N-1)). *)
Theorem randomRound_ids {rng} (shuffle : rng → list Z → list Z * rng)
    (w : World rng) (N : Z) :
  (∀ s lst, (shuffle s lst).1 ≡ₚ lst) →
  NTEAMS (this w) = N → Z.even N = true → 2 ≤ N →
  ∃ round,
    randomRound shuffle w = (Ok round, after_draw shuffle w) ∧
    StronglySorted Z.lt round ∧
    Forall (λ gid, 0 ≤ gid < N * (N - 1)) round.
Proof.
  intros Hsh <- He HN. eexists. split; [by apply randomRound_even|]. split.
  - apply StronglySorted_le_lt.
    + apply Sorted_StronglySorted; [apply _|apply sorted_Sorted].
    + rewrite sorted_Permutation. by apply NoDup_round_ids.
  - rewrite sorted_Permutation. apply Forall_fmap.
    eapply Forall_impl; [by apply pairs_of_drawn_valid|].
    intros [a b] (? & ? & ?). simpl in *. by apply teamIdsToGameId_range.
Qed.

(** X7.  With an odd positive team count [randomRound] raises a type error,
    after the shuffle has been drawn: the last batch holds a single team.
    With a team count of zero or less it returns the empty round. *)
Theorem randomRound_degenerate {rng} (shuffle : rng → list Z → list Z * rng)
    (w : World rng) :
  (∀ s lst, (shuffle s lst).1 ≡ₚ lst) →
  (0 < NTEAMS (this w) → Z.even (NTEAMS (this w)) = false →
     randomRound shuffle w = (Raise TypeError, after_draw shuffle w)) ∧
  (NTEAMS (this w) ≤ 0 →
     randomRound shuffle w = (Ok [], after_draw shuffle w)).
Proof.
  intros Hsh. split.
  - intros HN He. apply randomRound_odd; [done|lia|done].
  - intros HN. rewrite randomRound_unfold.
    assert (drawn shuffle w = []) as ->; [|done].
    apply Permutation_nil_r. unfold drawn. rewrite Hsh.
    unfold range. by rewrite seqZ_nil by lia.
Qed.

Lemma randomTournament_matchings {rng} (shuffle : rng → list Z → list Z * rng)
    (w : World rng) :
  (∀ s lst, (shuffle s lst).1 ≡ₚ lst) →
  Z.even (NTEAMS (this w)) = true → 2 ≤ NTEAMS (this w) →
  NROUNDS (this w) = 2 * (NTEAMS (this w) - 1) →
  ∃ tournament w',
    randomTournament shuffle w = (Ok tournament, w') ∧ this w' = this w ∧
    Z.of_nat (length tournament) = NROUNDS (this w) ∧
    Forall (perfect_matching (NTEAMS (this w))) tournament ∧
    Forall (λ round, StronglySorted Z.lt (round.*1)) tournament.
Proof.
  intros Hsh He HN Hrounds.
  unfold randomTournament, bind at 1, get_this. cbv beta iota.
  destruct (repeat_py_total (λ w', this w' = this w)
              (λ round, perfect_matching (NTEAMS (this w)) round ∧
                        StronglySorted Z.lt (round.*1))
              (bind (randomRound shuffle)
                    (λ round, lift (traverse (gameIdToTeamIds (this w)) round)))
              ) with (Z.to_nat (NROUNDS (this w))) w
    as (tournament & w' & Hrun & Hthis & Hlen & Hall); [|done|].
  - intros w1 Hw1. unfold bind.
    rewrite randomRound_even by (by rewrite ?Hw1).
    unfold lift. rewrite Hw1.
    rewrite (traverse_Ok_fmap _ (decode (this w)))
      by (intros gid _; apply gameIdToTeamIds_decode; lia).
    eexists _, _. split; [done|]. split; [done|].
    rewrite <-Hw1. apply decoded_round_matching; by rewrite ?Hw1.
  - exists tournament, w'. split_and!; [done|done|lia| |].
    + eapply Forall_impl; [done|]. by intros round [? _].
    + eapply Forall_impl; [done|]. by intros round [_ ?].
Qed.

(** X8.  For every even N >= 2, [randomTournament] returns exactly 2*(N-1)
    rounds and leaves the object untouched; every round is a perfect
    matching of the teams of [0, N), and its games are listed by strictly
    increasing host. *)
Theorem randomTournament_rounds {rng} (shuffle : rng → list Z → list Z * rng)
    (w : World rng) (N : Z) :
  (∀ s lst, (shuffle s lst).1 ≡ₚ lst) →
  NTEAMS (this w) = N → Z.even N = true → 2 ≤ N →
  NROUNDS (this w) = 2 * (N - 1) →
  ∃ tournament w',
    randomTournament shuffle w = (Ok tournament, w') ∧ this w' = this w ∧
    Z.of_nat (length tournament) = 2 * (N - 1) ∧
    Forall (perfect_matching N) tournament ∧
    Forall (λ round, StronglySorted Z.lt (round.*1)) tournament.
Proof.
  intros Hsh <- He HN Hrounds.
  destruct (randomTournament_matchings shuffle w Hsh He HN Hrounds)
    as (tournament & w' & Hrun & Hthis & Hlen & Hall).
  exists tournament, w'. by rewrite <-Hrounds.
Qed.

(** ** Bounds of the double-round-robin counter *)

Lemma Zsum_nonneg {A} (f : A → Z) (lst : list A) :
  (∀ x, x ∈ lst → 0 ≤ f x) → 0 ≤ Zsum f lst.
Proof.
  induction lst as [|x lst IH]; intros Hf; simpl; [done|].
  pose proof (Hf x ltac:(left)). pose proof (IH (λ y Hy, Hf y ltac:(by right))).
  unfold Zsum in *. lia.
Qed.

Lemma Zsum_zero_iff {A} (f : A → Z) (lst : list A) :
  (∀ x, x ∈ lst → 0 ≤ f x) →
  Zsum f lst = 0 ↔ ∀ x, x ∈ lst → f x = 0.
Proof.
  induction lst as [|x lst IH]; intros Hf; simpl.
  - split; [|done]. intros _ x Hx. by apply elem_of_nil in Hx.
  - pose proof (Hf x ltac:(left)) as Hx.
    assert (∀ y, y ∈ lst → 0 ≤ f y) as Hrest by (intros y Hy; apply Hf; by right).
    pose proof (Zsum_nonneg f lst Hrest) as Hsum. specialize (IH Hrest).
    unfold Zsum in *. split.
    + intros Hzero y [->|Hy]%elem_of_cons; [lia|]. apply IH; [lia|done].
    + intros Hall. rewrite (Hall x) by left.
      rewrite (proj2 IH); [done|]. intros y Hy. apply Hall. by right.
Qed.

Lemma Zsum_le {A} (f g : A → Z) (lst : list A) :
  (∀ x, x ∈ lst → f x ≤ g x) → Zsum f lst ≤ Zsum g lst.
Proof.
  induction lst as [|x lst IH]; intros Hfg; simpl; [done|].
  pose proof (Hfg x ltac:(left)). pose proof (IH (λ y Hy, Hfg y ltac:(by right))).
  unfold Zsum in *. lia.
Qed.

Lemma Zsum_app {A} (f : A → Z) (l1 l2 : list A) :
  Zsum f (l1 ++ l2) = Zsum f l1 + Zsum f l2.
Proof. induction l1 as [|x l1 IH]; simpl; [done|]. unfold Zsum in *. lia. Qed.

Lemma Zsum_const {A} (c : Z) (lst : list A) :
  Zsum (λ _, c) lst = c * Z.of_nat (length lst).
Proof. induction lst as [|x lst IH]; simpl; [lia|]. unfold Zsum in *. lia. Qed.

Lemma Zsum_arithmetic (c : Z) (n : nat) :
  Zsum (λ host, c - 2 * host) (seqZ 0 (Z.of_nat n))
    = c * Z.of_nat n - Z.of_nat n * (Z.of_nat n - 1).
Proof.
  induction n as [|n IH]; [rewrite seqZ_nil by done; simpl; lia|].
  rewrite seqZ_S, Zsum_app, IH. simpl. lia.
Qed.

(** The number of unordered pairs host < guest, counted twice. *)
Lemma Zsum_pairs_two (N : Z) :
  0 ≤ N →
  Zsum (λ host, Zsum (λ _ : Z, 2) (range (host + 1) N)) (range 0 N) = N * (N - 1).
Proof.
  intros HN.
  rewrite (Zsum_ext _ (λ host, 2 * (N - 1) - 2 * host)).
  2:{ intros host [Hh1 Hh2]%elem_of_range.
      rewrite Zsum_const, length_range. lia. }
  unfold range. rewrite Z.sub_0_r, <-(Z2Nat.id N) at 1 by done.
  rewrite Zsum_arithmetic, Z2Nat.id by done. lia.
Qed.

Lemma pair_total_singleton_le N a b : pair_total N [(a, b)] ≤ 1.
Proof.
  unfold pair_total.
  rewrite (Zsum_ext _ (λ host,
    (if decide (host = a) then (if decide (a + 1 ≤ b < N) then 1 else 0) else 0) +
    (if decide (host = b) then (if decide (b + 1 ≤ a < N) then 1 else 0) else 0))).
  - rewrite Zsum_add, !Zsum_point_range. decide_cases.
  - intros host _. rewrite Zsum_add.
    rewrite (Zsum_ext _ (λ guest,
      if decide (guest = b) then (if decide (host = a) then 1 else 0) else 0)).
    2:{ intros guest _. unfold occurrences. simpl. decide_cases. }
    rewrite (Zsum_ext (λ guest, occurrences (guest, host) _) (λ guest,
      if decide (guest = a) then (if decide (host = b) then 1 else 0) else 0)).
    2:{ intros guest _. unfold occurrences. simpl. decide_cases. }
    rewrite !Zsum_point_range. decide_cases.
Qed.

Lemma pair_total_le_length N games :
  pair_total N games ≤ Z.of_nat (length games).
Proof.
  induction games as [|[a b] games IH].
  - by rewrite pair_total_nil.
  - rewrite pair_total_cons, length_cons.
    pose proof (pair_total_singleton_le N a b). lia.
Qed.

Lemma occurrences_nonneg `{EqDecision K} (key : K) (lst : list K) :
  0 ≤ occurrences key lst.
Proof. apply Zsum_nonneg. intros x _. case_decide; lia. Qed.

Lemma countDoubleRoundRobinViolations_nonneg self tournament :
  0 ≤ countDoubleRoundRobinViolations self tournament.
Proof.
  rewrite countDoubleRoundRobinViolations_Zsum.
  apply Zsum_nonneg. intros host _. apply Zsum_nonneg. intros guest _. lia.
Qed.

(** X9.  [countDoubleRoundRobinViolations] returns 0 exactly when every
    ordered pair of different teams of [0, N) occurs exactly once among the
    games of the tournament. *)
Theorem countDoubleRoundRobinViolations_zero_iff (self : Experiment)
    (tournament : list (list (Z * Z))) :
  countDoubleRoundRobinViolations self tournament = 0 ↔
  ∀ host guest, 0 ≤ host < NTEAMS self → 0 ≤ guest < NTEAMS self → host ≠ guest →
    occurrences (host, guest) (flatten tournament) = 1.
Proof.
  rewrite countDoubleRoundRobinViolations_Zsum.
  rewrite Zsum_zero_iff by (intros host _; apply Zsum_nonneg; intros guest _; lia).
  split.
  - intros Hzero host guest Hh Hg Hne.
    destruct (decide (host < guest)) as [Hlt|Hge].
    + specialize (Hzero host ltac:(by apply elem_of_range)). simpl in Hzero.
      rewrite Zsum_zero_iff in Hzero by (intros ? _; lia).
      specialize (Hzero guest ltac:(apply elem_of_range; lia)). simpl in Hzero. lia.
    + specialize (Hzero guest ltac:(by apply elem_of_range)). simpl in Hzero.
      rewrite Zsum_zero_iff in Hzero by (intros ? _; lia).
      specialize (Hzero host ltac:(apply elem_of_range; lia)). simpl in Hzero. lia.
  - intros Hall host [Hh1 Hh2]%elem_of_range.
    apply Zsum_zero_iff; [intros ? _; lia|].
    intros guest [Hg1 Hg2]%elem_of_range.
    rewrite !Hall by lia. done.
Qed.

(** X10.  For N >= 0 teams, a tournament with fewer than N*(N-1) games is
    counted at least the number of games it lacks; the empty tournament is
    counted N*(N-1). *)
Theorem countDoubleRoundRobinViolations_lower_bound (self : Experiment)
    (tournament : list (list (Z * Z))) :
  0 ≤ NTEAMS self →
  NTEAMS self * (NTEAMS self - 1) - Z.of_nat (length (flatten tournament))
    ≤ countDoubleRoundRobinViolations self tournament ∧
  countDoubleRoundRobinViolations self [] = NTEAMS self * (NTEAMS self - 1).
Proof.
  intros HN. split.
  - pose proof (pair_total_le_length (NTEAMS self) (flatten tournament)) as Hle.
    rewrite <-(Zsum_pairs_two (NTEAMS self)) by done.
    rewrite countDoubleRoundRobinViolations_Zsum.
    unfold pair_total in Hle.
    apply Z.le_sub_le_add_r. etrans; [|apply Z.add_le_mono_l, Hle].
    rewrite <-Zsum_add. apply Zsum_le. intros host _.
    rewrite <-Zsum_add. apply Zsum_le. intros guest _. lia.
  - rewrite countDoubleRoundRobinViolations_Zsum.
    rewrite <-(Zsum_pairs_two (NTEAMS self)) by done.
    apply Zsum_ext. intros host _. by apply Zsum_ext.
Qed.

(** ** The no-repeat counter *)

Lemma for_each_ext {A S} (body1 body2 : S → A → result S) (acc : S) (xs : list A) :
  (∀ acc x, x ∈ xs → body1 acc x = body2 acc x) →
  for_each body1 acc xs = for_each body2 acc xs.
Proof.
  revert acc. induction xs as [|x xs IH]; intros acc Hbody; simpl; [done|].
  rewrite Hbody by left. destruct (body2 acc x) as [acc'|e]; simpl; [|done].
  apply IH. intros acc'' y Hy. apply Hbody. by right.
Qed.

Lemma for_each_app {A S} (body : S → A → result S) (acc : S) (xs ys : list A) :
  for_each body acc (xs ++ ys) = rbind (for_each body acc xs) (λ acc', for_each body acc' ys).
Proof.
  revert acc. induction xs as [|x xs IH]; intros acc; simpl; [done|].
  destruct (body acc x) as [acc'|e]; simpl; [apply IH|done].
Qed.

Lemma for_each_Ok_inv {A S} (I : S → Prop) (body : S → A → result S)
    (xs : list A) (acc r : S) :
  (∀ acc x acc', I acc → body acc x = Ok acc' → I acc') →
  I acc → for_each body acc xs = Ok r → I r.
Proof.
  intros Hbody. revert acc. induction xs as [|x xs IH]; intros acc Hacc; simpl.
  - by intros [= <-].
  - destruct (body acc x) as [acc'|e] eqn:Hx; simpl; [|done].
    apply IH. by eapply Hbody.
Qed.

Lemma for_each_bounded {A} (P : A → Prop) (c : Z) (body : Z → A → result Z)
    (xs : list A) (acc : Z) :
  (∀ acc x, P x → ∃ acc', body acc x = Ok acc' ∧ acc ≤ acc' ≤ acc + c) →
  Forall P xs →
  ∃ r, for_each body acc xs = Ok r ∧ acc ≤ r ≤ acc + c * Z.of_nat (length xs).
Proof.
  intros Hbody Hxs. revert acc.
  induction Hxs as [|x xs Hx _ IH]; intros acc; simpl.
  - exists acc. split; [done|]. lia.
  - destruct (Hbody acc x Hx) as (acc' & -> & Hacc'). simpl.
    destruct (IH acc') as (r & -> & Hr). exists r. split; [done|]. lia.
Qed.

Lemma getitem_Ok_elem {A} (lst : list A) (i : Z) :
  0 ≤ i < Z.of_nat (length lst) → ∃ x, getitem lst i = Ok x ∧ x ∈ lst.
Proof.
  intros Hi. unfold getitem.
  destruct (Z.ltb_spec i 0); [lia|]. destruct (Z.ltb_spec i 0); [lia|].
  destruct (lookup_lt_is_Some_2 lst (Z.to_nat i)) as [x Hx]; [lia|].
  rewrite Hx. exists x. split; [done|]. by eapply list_elem_of_lookup_2.
Qed.

Lemma getitem_IndexError {A} (lst : list A) (i : Z) :
  Z.of_nat (length lst) ≤ i → getitem lst i = Raise IndexError.
Proof.
  intros Hi. unfold getitem.
  destruct (Z.ltb_spec i 0); [lia|]. destruct (Z.ltb_spec i 0); [lia|].
  rewrite lookup_ge_None_2; [done|lia].
Qed.

Lemma getitem_app_l {A} (lst extra : list A) (i : Z) :
  0 ≤ i < Z.of_nat (length lst) → getitem (lst ++ extra) i = getitem lst i.
Proof.
  intros Hi. unfold getitem.
  destruct (Z.ltb_spec i 0); [lia|]. destruct (Z.ltb_spec i 0); [lia|].
  rewrite lookup_app_l; [done|lia].
Qed.

Lemma scan_round_bounds nextRound currentRound violations :
  violations ≤ scan_round nextRound currentRound violations
    ≤ violations + 2 * Z.of_nat (length currentRound).
Proof.
  unfold scan_round. revert violations.
  induction currentRound as [|[host guest] currentRound IH]; intros violations; simpl.
  - lia.
  - match goal with |- context [foldl _ ?v currentRound] => specialize (IH v) end.
    repeat case_bool_decide; lia.
Qed.

Lemma no_reversed_game (games : list (Z * Z)) (host guest : Z) :
  NoDup (teams_of games) → (host, guest) ∈ games → (guest, host) ∈ games → False.
Proof.
  induction games as [|[a b] games IH]; [by intros _ ?%elem_of_nil|].
  rewrite teams_of_cons. intros Hnd.
  apply NoDup_cons in Hnd as [Ha Hnd]. apply NoDup_cons in Hnd as [Hb Hnd].
  apply not_elem_of_cons in Ha as [Hab Ha].
  pose proof (NoDup_teams_of_valid games Hnd) as Hvalid.
  rewrite Forall_forall in Hvalid.
  intros [[= -> ->]|Hin1]%elem_of_cons [[= Heq1 Heq2]|Hin2]%elem_of_cons.
  - congruence.
  - destruct (Hvalid _ Hin2) as (? & ? & _). simpl in *. done.
  - destruct (Hvalid _ Hin1) as (? & ? & _). simpl in *. subst. done.
  - by apply IH.
Qed.

Lemma scan_round_matching nextRound currentRound violations :
  NoDup (teams_of nextRound) →
  violations ≤ scan_round nextRound currentRound violations
    ≤ violations + Z.of_nat (length currentRound).
Proof.
  intros Hnd. unfold scan_round. revert violations.
  induction currentRound as [|[host guest] currentRound IH]; intros violations; simpl.
  - lia.
  - match goal with |- context [foldl _ ?v currentRound] => specialize (IH v) end.
    repeat case_bool_decide; try lia.
    exfalso. by eapply no_reversed_game.
Qed.

Lemma countNoRepeatViolations_unfold self tournament :
  countNoRepeatViolations self tournament =
    for_each (λ violations nextRoundNr,
      rbind (getitem tournament nextRoundNr) (λ nextRound,
      rbind (getitem tournament (nextRoundNr - 1)) (λ currentRound,
      Ok (scan_round nextRound currentRound violations))))
    0 (range 1 (NROUNDS self)).
Proof. reflexivity. Qed.

Lemma countNoRepeatViolations_nonneg self tournament violations :
  countNoRepeatViolations self tournament = Ok violations → 0 ≤ violations.
Proof.
  rewrite countNoRepeatViolations_unfold.
  apply (for_each_Ok_inv (λ v, 0 ≤ v)); [|done].
  intros acc nr acc' Hacc.
  destruct (getitem tournament nr) as [nextRound|]; simpl; [|done].
  destruct (getitem tournament (nr - 1)) as [currentRound|]; simpl; [|done].
  intros [= <-]. pose proof (scan_round_bounds nextRound currentRound acc). lia.
Qed.

(** X11.  [countNoRepeatViolations] reads only the first NROUNDS rounds of
    the tournament it is given: rounds beyond them do not change the
    result. *)
Theorem countNoRepeatViolations_prefix (self : Experiment)
    (tournament extra : list (list (Z * Z))) :
  NROUNDS self ≤ Z.of_nat (length tournament) →
  countNoRepeatViolations self (tournament ++ extra)
    = countNoRepeatViolations self tournament.
Proof.
  intros Hlen. rewrite !countNoRepeatViolations_unfold.
  apply for_each_ext. intros acc nr [Hnr1 Hnr2]%elem_of_range.
  by rewrite !getitem_app_l by lia.
Qed.

(** X12.  [countNoRepeatViolations] returns when the experiment has at most
    one round or the tournament has at least NROUNDS rounds; on a shorter
    tournament it raises an index error. *)
Theorem countNoRepeatViolations_IndexError (self : Experiment)
    (tournament : list (list (Z * Z))) :
  (NROUNDS self ≤ 1 ∨ NROUNDS self ≤ Z.of_nat (length tournament) →
     ∃ violations, countNoRepeatViolations self tournament = Ok violations) ∧
  (2 ≤ NROUNDS self → Z.of_nat (length tournament) < NROUNDS self →
     countNoRepeatViolations self tournament = Raise IndexError).
Proof.
  split.
  - intros [Hone|Hlen]; [|by apply countNoRepeatViolations_total].
    rewrite countNoRepeatViolations_unfold. unfold range.
    rewrite seqZ_nil by lia. by eexists.
  - intros Hrounds Hlen. rewrite countNoRepeatViolations_unfold.
    set (k := Z.max 1 (Z.of_nat (length tournament))).
    assert (range 1 (NROUNDS self)
            = range 1 k ++ k :: range (k + 1) (NROUNDS self)) as ->.
    { unfold range.
      replace (NROUNDS self - 1) with ((k - 1) + (NROUNDS self - k)) by lia.
      rewrite seqZ_app by lia. f_equal.
      replace (1 + (k - 1)) with k by lia.
      rewrite seqZ_cons by lia. do 2 f_equal; lia. }
    rewrite for_each_app.
    edestruct (for_each_total (λ _ : Z, True) (λ nr, 1 ≤ nr < k))
      as (violations & -> & _);
      [| |apply Forall_forall; intros nr; apply elem_of_range|].
    + intros acc nr _ Hnr.
      destruct (getitem_Ok tournament nr) as [nextRound ->]; [lia|].
      destruct (getitem_Ok tournament (nr - 1)) as [currentRound ->]; [lia|].
      simpl. eauto.
    + done.
    + simpl. by rewrite getitem_IndexError by lia.
Qed.

Lemma countNoRepeatViolations_matchings (self : Experiment) (N : Z)
    (tournament : list (list (Z * Z))) :
  1 ≤ NROUNDS self ≤ Z.of_nat (length tournament) →
  Forall (perfect_matching N) tournament →
  ∃ violations,
    countNoRepeatViolations self tournament = Ok violations ∧
    0 ≤ violations ≤ (NROUNDS self - 1) * (N / 2).
Proof.
  intros Hlen Hrounds. rewrite countNoRepeatViolations_unfold.
  rewrite Forall_forall in Hrounds.
  edestruct (for_each_bounded (λ nr, 1 ≤ nr < NROUNDS self) (N / 2))
    as (violations & -> & Hbound);
    [|apply Forall_forall; intros nr; apply elem_of_range|].
  - intros acc nr Hnr.
    destruct (getitem_Ok_elem tournament nr) as (nextRound & -> & Hnext); [lia|].
    destruct (getitem_Ok_elem tournament (nr - 1)) as (currentRound & -> & Hcur); [lia|].
    simpl. eexists. split; [done|].
    destruct (Hrounds _ Hnext) as [_ Hteams]. destruct (Hrounds _ Hcur) as [<- _].
    apply scan_round_matching. rewrite Hteams. apply NoDup_seqZ.
  - exists violations. split; [done|].
    rewrite length_range, Z2Nat.id in Hbound by lia. lia.
Qed.

(** X13.  On a tournament of at least NROUNDS rounds, each a perfect
    matching of the teams of [0, N), no game is counted twice against the
    next round: the result lies between 0 and (NROUNDS - 1) * (N // 2). *)
Theorem countNoRepeatViolations_bound (self : Experiment) (N : Z)
    (tournament : list (list (Z * Z))) :
  1 ≤ NROUNDS self ≤ Z.of_nat (length tournament) →
  Forall (perfect_matching N) tournament →
  ∃ violations,
    countNoRepeatViolations self tournament = Ok violations ∧
    0 ≤ violations ≤ (NROUNDS self - 1) * (N / 2).
Proof.
  intros Hlen Hrounds.
  destruct (countNoRepeatViolations_matchings self N tournament Hlen Hrounds)
    as (violations & Hrun & Hbound).
  by exists violations.
Qed.

(** ** The max-streak counter *)

Lemma countMaxStreakViolations_unfold self tournament :
  countMaxStreakViolations self tournament =
    rbind (for_each (for_each (streak_step (MAXSTREAK self)))
             (0, streak_init (NTEAMS self)) tournament)
          (λ st, Ok st.1).
Proof.
  unfold countMaxStreakViolations, streak_init.
  match goal with |- rbind ?m _ = rbind ?m' _ => change m with m' end.
  by destruct (for_each _ _ _) as [[]|].
Qed.

Lemma streak_init_lookup_eq (teams : list Z) (d : gmap Z (Z * Z)) team :
  foldl (λ d team, <[team := (0, 0)]> d) d teams !! team
    = if decide (team ∈ teams) then Some (0, 0) else d !! team.
Proof.
  revert d. induction teams as [|t teams IH]; intros d.
  - destruct (decide (team ∈ [])) as [Hin|]; [by apply elem_of_nil in Hin|done].
  - cbn [foldl]. rewrite IH. destruct (decide (team ∈ teams)) as [Hin|Hin].
    + by rewrite decide_True by by right.
    + destruct (decide (t = team)) as [->|Hne].
      * rewrite lookup_insert_eq. by rewrite decide_True by left.
      * rewrite lookup_insert_ne by done. rewrite decide_False; [done|].
        rewrite elem_of_cons. intros [?|?]; congruence.
Qed.

Lemma streak_init_wf N : streak_wf N (streak_init N).
Proof.
  unfold streak_init. split.
  - intros team. rewrite streak_init_lookup_eq, lookup_empty, <-elem_of_range.
    destruct (decide (team ∈ range 0 N)) as [Hin|Hin].
    + split; [done|by eauto].
    + split; [by intros [? ?]|done].
  - intros team home away. rewrite streak_init_lookup_eq, lookup_empty.
    case_decide; [|done]. intros [= <- <-]. lia.
Qed.

Lemma streak_step_in_range T N violations streak game :
  streak_wf N streak → in_range_game N game →
  ∃ violations' streak',
    streak_step T (violations, streak) game = Ok (violations', streak') ∧
    streak_wf N streak' ∧
    violations ≤ violations' ≤ violations + 2 ∧
    (T ≤ 0 → violations' = violations + 2).
Proof.
  destruct game as [host guest]. intros [Hdom Hpos] [Hh Hg]. simpl in *.
  destruct (proj2 (Hdom host) Hh) as [[home away] Hhost].
  unfold dict_getitem at 1. rewrite Hhost. simpl.
  destruct (Hpos _ _ _ Hhost) as [Hhome _].
  assert (∃ home' away', <[host := (home + 1, 0)]> streak !! guest = Some (home', away')
                         ∧ 0 ≤ home' ∧ 0 ≤ away') as (home' & away' & Hguest & _ & Haway).
  { destruct (decide (host = guest)) as [->|Hne].
    - rewrite lookup_insert_eq. eexists _, _. split; [done|]. lia.
    - rewrite lookup_insert_ne by done.
      destruct (proj2 (Hdom guest) Hg) as [[home' away'] Hguest].
      destruct (Hpos _ _ _ Hguest). by eexists _, _. }
  unfold dict_getitem. rewrite Hguest. simpl.
  eexists _, _. split; [done|]. split; [split|].
  - intros team. destruct (decide (guest = team)) as [->|Hne1].
    { rewrite lookup_insert_eq. split; [done|by eauto]. }
    rewrite lookup_insert_ne by done.
    destruct (decide (host = team)) as [->|Hne2].
    { rewrite lookup_insert_eq. split; [done|by eauto]. }
    rewrite lookup_insert_ne by done. apply Hdom.
  - intros team h a. destruct (decide (guest = team)) as [->|Hne1].
    { rewrite lookup_insert_eq. intros [= <- <-]. lia. }
    rewrite lookup_insert_ne by done.
    destruct (decide (host = team)) as [->|Hne2].
    { rewrite lookup_insert_eq. intros [= <- <-]. lia. }
    rewrite lookup_insert_ne by done. apply Hpos.
  - destruct (Z.gtb_spec (home + 1) T), (Z.gtb_spec (away' + 1) T); lia.
Qed.

Lemma streak_step_out_of_range T N violations streak game :
  streak_wf N streak → ¬ in_range_game N game →
  streak_step T (violations, streak) game = Raise KeyError.
Proof.
  destruct game as [host guest]. intros [Hdom Hpos] Hout. simpl.
  unfold in_range_game in Hout. simpl in Hout.
  destruct (streak !! host) as [[home away]|] eqn:Hhost.
  - unfold dict_getitem at 1. rewrite Hhost. simpl.
    assert (0 ≤ host < N) as Hh by (apply Hdom; eauto).
    assert (<[host := (home + 1, 0)]> streak !! guest = None) as Hguest.
    { destruct (decide (host = guest)) as [->|Hne]; [tauto|].
      rewrite lookup_insert_ne by done. apply eq_None_not_Some.
      rewrite Hdom. tauto. }
    unfold dict_getitem. by rewrite Hguest.
  - unfold dict_getitem. by rewrite Hhost.
Qed.

(** A loop whose invariant speaks of the items already visited. *)
Lemma for_each_prefix {A S} (I : list A → S → Prop) (body : S → A → result S)
    (xs : list A) (acc : S) :
  I [] acc →
  (∀ pre x post acc, xs = pre ++ x :: post → I pre acc →
     ∃ acc', body acc x = Ok acc' ∧ I (pre ++ [x]) acc') →
  ∃ acc', for_each body acc xs = Ok acc' ∧ I xs acc'.
Proof.
  intros Hacc Hbody.
  assert (∀ rest pre acc, xs = pre ++ rest → I pre acc →
            ∃ acc', for_each body acc rest = Ok acc' ∧ I xs acc') as Hgen.
  { induction rest as [|x rest IH]; intros pre acc' Hxs Hpre; simpl.
    - rewrite app_nil_r in Hxs. subst. by eauto.
    - destruct (Hbody pre x rest acc' Hxs Hpre) as (acc'' & -> & Hacc''). simpl.
      apply (IH (pre ++ [x])); [|done]. by rewrite <-app_assoc. }
  by apply (Hgen xs []).
Qed.

(** A loop that raises at the first item that is not accepted. *)
Lemma for_each_first_bad {A S} (I : S → Prop) (P : A → Prop) `{∀ x, Decision (P x)}
    (e : exn) (body : S → A → result S) (xs : list A) (acc : S) :
  (∀ acc x, I acc → P x → ∃ acc', body acc x = Ok acc' ∧ I acc') →
  (∀ acc x, I acc → ¬ P x → body acc x = Raise e) →
  I acc → ¬ Forall P xs → for_each body acc xs = Raise e.
Proof.
  intros Hgood Hbad. revert acc.
  induction xs as [|x xs IH]; intros acc Hacc Hxs; simpl.
  - destruct Hxs. constructor.
  - destruct (decide (P x)) as [Hx|Hx].
    + destruct (Hgood acc x Hacc Hx) as (acc' & -> & Hacc'). simpl.
      apply IH; [done|]. intros Hall. apply Hxs. by constructor.
    + by rewrite Hbad.
Qed.

(** The inner loop over the games of one round. *)
Lemma streak_round_in_range T N violations streak (round : list (Z * Z)) :
  streak_wf N streak → Forall (in_range_game N) round →
  ∃ violations' streak',
    for_each (streak_step T) (violations, streak) round = Ok (violations', streak') ∧
    streak_wf N streak' ∧
    violations ≤ violations' ≤ violations + 2 * Z.of_nat (length round) ∧
    (T ≤ 0 → violations' = violations + 2 * Z.of_nat (length round)).
Proof.
  intros Hwf Hround.
  edestruct (for_each_prefix (λ pre st,
      streak_wf N st.2 ∧
      violations ≤ st.1 ≤ violations + 2 * Z.of_nat (length pre) ∧
      (T ≤ 0 → st.1 = violations + 2 * Z.of_nat (length pre)))
    (streak_step T) round (violations, streak))
    as ([violations' streak'] & Hrun & Hwf' & Hbound & Hexact).
  - simpl. split_and!; [done|lia|lia|lia].
  - intros pre game post [v s] -> (Hs & Hv & Hex). simpl in Hs, Hv, Hex.
    apply Forall_app in Hround as [_ [Hgame _]%Forall_cons].
    destruct (streak_step_in_range T N v s game Hs Hgame)
      as (v' & s' & -> & Hs' & Hv' & Hex').
    eexists. split; [done|]. simpl. rewrite length_app. simpl.
    split_and!; [done|lia|lia|]. intros HT. specialize (Hex HT). specialize (Hex' HT). lia.
  - by eexists _, _.
Qed.

Lemma streak_rounds_in_range T N violations streak (tournament : list (list (Z * Z))) :
  streak_wf N streak → Forall (Forall (in_range_game N)) tournament →
  ∃ violations' streak',
    for_each (for_each (streak_step T)) (violations, streak) tournament
      = Ok (violations', streak') ∧
    streak_wf N streak' ∧
    violations ≤ violations' ≤ violations + 2 * Z.of_nat (length (flatten tournament)) ∧
    (T ≤ 0 → violations' = violations + 2 * Z.of_nat (length (flatten tournament))).
Proof.
  intros Hwf Hall. revert violations streak Hwf.
  induction Hall as [|round tournament Hround _ IH]; intros violations streak Hwf.
  - simpl. eexists _, _. split_and!; [done|done|lia|lia|lia].
  - cbn [for_each].
    destruct (streak_round_in_range T N violations streak round Hwf Hround)
      as (v1 & s1 & -> & Hwf1 & Hv1 & Hex1). cbn [rbind].
    destruct (IH v1 s1 Hwf1) as (v2 & s2 & -> & Hwf2 & Hv2 & Hex2).
    eexists _, _. unfold flatten in *. cbn [concat]. rewrite length_app.
    split_and!; [done|done|lia|lia|].
    intros HT. specialize (Hex1 HT). specialize (Hex2 HT). lia.
Qed.

(** X14.  [countMaxStreakViolations] returns when every game of the
    tournament is between teams of [0, N), and raises a key error as soon
    as some game names a team outside [0, N). *)
Theorem countMaxStreakViolations_KeyError (self : Experiment)
    (tournament : list (list (Z * Z))) :
  (Forall (Forall (in_range_game (NTEAMS self))) tournament →
     ∃ violations, countMaxStreakViolations self tournament = Ok violations) ∧
  (¬ Forall (Forall (in_range_game (NTEAMS self))) tournament →
     countMaxStreakViolations self tournament = Raise KeyError).
Proof.
  rewrite countMaxStreakViolations_unfold. split.
  - intros Hall.
    destruct (streak_rounds_in_range (MAXSTREAK self) (NTEAMS self) 0
                (streak_init (NTEAMS self)) tournament)
      as (v & s & -> & _); [apply streak_init_wf|done|]. by eexists.
  - intros Hbad.
    rewrite (for_each_first_bad (λ st, streak_wf (NTEAMS self) st.2)
               (Forall (in_range_game (NTEAMS self))) KeyError); [done| | | |done].
    + intros [v s] round Hs Hround. simpl in Hs.
      destruct (streak_round_in_range (MAXSTREAK self) (NTEAMS self) v s round)
        as (v' & s' & -> & Hs' & _); [done..|]. by eexists.
    + intros [v s] round Hs Hround. simpl in Hs.
      apply (for_each_first_bad (λ st, streak_wf (NTEAMS self) st.2)
               (in_range_game (NTEAMS self))); [| |done..].
      * intros [v1 s1] game Hs1 Hgame. simpl in Hs1.
        destruct (streak_step_in_range (MAXSTREAK self) (NTEAMS self) v1 s1 game)
          as (v' & s' & -> & Hs' & _); [done..|]. by eexists.
      * intros [v1 s1] game Hs1 Hgame. by eapply streak_step_out_of_range.
    + apply streak_init_wf.
Qed.

(** X15.  On a tournament whose games are all between teams of [0, N),
    [countMaxStreakViolations] returns a number between 0 and twice the
    number of games. *)
Theorem countMaxStreakViolations_bounds (self : Experiment)
    (tournament : list (list (Z * Z))) :
  Forall (Forall (in_range_game (NTEAMS self))) tournament →
  ∃ violations,
    countMaxStreakViolations self tournament = Ok violations ∧
    0 ≤ violations ≤ 2 * Z.of_nat (length (flatten tournament)).
Proof.
  intros Hall. rewrite countMaxStreakViolations_unfold.
  destruct (streak_rounds_in_range (MAXSTREAK self) (NTEAMS self) 0
              (streak_init (NTEAMS self)) tournament)
    as (v & s & -> & _ & Hv & _); [apply streak_init_wf|done|].
  exists v. split; [done|]. lia.
Qed.

(** X16.  With a threshold of zero or less every game counts twice, once
    for the host and once for the guest: on a tournament whose games are
    all between teams of [0, N), [countMaxStreakViolations] returns twice
    the number of games. *)
Theorem countMaxStreakViolations_no_tolerance (self : Experiment)
    (tournament : list (list (Z * Z))) :
  MAXSTREAK self ≤ 0 →
  Forall (Forall (in_range_game (NTEAMS self))) tournament →
  countMaxStreakViolations self tournament
    = Ok (2 * Z.of_nat (length (flatten tournament))).
Proof.
  intros HT Hall. rewrite countMaxStreakViolations_unfold.
  destruct (streak_rounds_in_range (MAXSTREAK self) (NTEAMS self) 0
              (streak_init (NTEAMS self)) tournament)
    as (v & s & -> & _ & _ & Hv); [apply streak_init_wf|done|].
  simpl. f_equal. rewrite (Hv HT). lia.
Qed.

Lemma teams_of_app (games1 games2 : list (Z * Z)) :
  teams_of (games1 ++ games2) = teams_of games1 ++ teams_of games2.
Proof. unfold teams_of. apply bind_app. Qed.

(** A game between two teams whose streaks are at most [k], under a
    threshold above [k], counts nothing and leaves both at most [k + 1]. *)
Lemma streak_step_below T N k streak host guest :
  streak_wf N streak → in_range_game N (host, guest) → host ≠ guest →
  k + 1 ≤ T →
  (∀ team home away, team = host ∨ team = guest →
     streak !! team = Some (home, away) → home ≤ k ∧ away ≤ k) →
  ∃ streak',
    streak_step T (0, streak) (host, guest) = Ok (0, streak') ∧
    streak_wf N streak' ∧
    ∀ team home away, streak' !! team = Some (home, away) →
      if decide (team = host ∨ team = guest)
      then home ≤ k + 1 ∧ away ≤ k + 1
      else streak !! team = Some (home, away).
Proof.
  intros Hwf Hgame Hne HT Hk.
  destruct (streak_step_in_range T N 0 streak (host, guest) Hwf Hgame)
    as (v' & streak' & Hstep & Hwf' & _ & _).
  destruct Hwf as [Hdom Hpos]. destruct Hgame as [Hh Hg]. simpl in Hh, Hg.
  destruct (proj2 (Hdom host) Hh) as [[home away] Hhost].
  destruct (proj2 (Hdom guest) Hg) as [[home' away'] Hguest].
  destruct (Hk host home away ltac:(by left) Hhost) as [Hhome _].
  destruct (Hk guest home' away' ltac:(by right) Hguest) as [_ Haway].
  destruct (Hpos _ _ _ Hhost) as [Hhome0 _].
  assert (streak_step T (0, streak) (host, guest)
          = Ok (0, <[guest := (0, away' + 1)]> (<[host := (home + 1, 0)]> streak)))
    as Heq.
  { cbn [streak_step]. unfold dict_getitem at 1. rewrite Hhost.
    cbn [rbind]. unfold dict_getitem. rewrite lookup_insert_ne, Hguest by done.
    cbn [rbind].
    destruct (Z.gtb_spec (home + 1) T); [lia|].
    by destruct (Z.gtb_spec (away' + 1) T); [lia|]. }
  rewrite Heq in Hstep. injection Hstep as <- <-.
  eexists. split; [done|]. split; [done|].
  intros team h a. destruct (decide (guest = team)) as [->|Hne1].
  { rewrite lookup_insert_eq. intros [= <- <-].
    rewrite decide_True by by right. lia. }
  rewrite lookup_insert_ne by done.
  destruct (decide (host = team)) as [->|Hne2].
  { rewrite lookup_insert_eq. intros [= <- <-].
    rewrite decide_True by by left. lia. }
  rewrite lookup_insert_ne by done.
  rewrite decide_False; [done|]. intros [?|?]; congruence.
Qed.

(** One round in which no team plays twice, after [k] rounds in which no
    streak went beyond [k]. *)
Lemma streak_round_below T N k streak (round : list (Z * Z)) :
  streak_wf N streak → Forall (in_range_game N) round → NoDup (teams_of round) →
  k + 1 ≤ T →
  (∀ team home away, streak !! team = Some (home, away) → home ≤ k ∧ away ≤ k) →
  ∃ streak',
    for_each (streak_step T) (0, streak) round = Ok (0, streak') ∧
    streak_wf N streak' ∧
    ∀ team home away, streak' !! team = Some (home, away) →
      home ≤ k + 1 ∧ away ≤ k + 1.
Proof.
  intros Hwf Hround Hnd HT Hk.
  edestruct (for_each_prefix (λ pre st,
      st.1 = 0 ∧ streak_wf N st.2 ∧
      ∀ team home away, st.2 !! team = Some (home, away) →
        home ≤ k + 1 ∧ away ≤ k + 1 ∧
        (team ∉ teams_of pre → home ≤ k ∧ away ≤ k))
    (streak_step T) round (0, streak))
    as ([v' streak'] & Hrun & Hv' & Hwf' & Hk').
  - simpl. split_and!; [done..|].
    intros team home away Hteam. destruct (Hk _ _ _ Hteam). split_and!; [lia|lia|done].
  - intros pre [host guest] post [v s] -> (Hv & Hs & Hbound).
    simpl in Hv, Hs, Hbound. subst v.
    apply Forall_app in Hround as [_ [Hgame _]%Forall_cons].
    rewrite teams_of_app, teams_of_cons in Hnd.
    apply NoDup_app in Hnd as (_ & Hfresh & Hnd').
    apply NoDup_cons in Hnd' as [Hhg _]. apply not_elem_of_cons in Hhg as [Hhg _].
    destruct (streak_step_below T N k s host guest) as (s' & -> & Hs' & Hk'); [done..| |].
    { intros team home away Hcase Hteam.
      destruct (Hbound _ _ _ Hteam) as (_ & _ & Hfit). apply Hfit.
      intros Hin. apply (Hfresh _ Hin). rewrite !elem_of_cons.
      destruct Hcase; auto. }
    eexists. split; [done|]. simpl. split_and!; [done..|].
    intros team home away Hteam. specialize (Hk' _ _ _ Hteam).
    destruct (decide (team = host ∨ team = guest)) as [Hcase|Hcase].
    + split_and!; [lia|lia|]. intros Hout. exfalso. apply Hout.
      rewrite teams_of_app, elem_of_app. right.
      change (teams_of [(host, guest)]) with [host; guest].
      rewrite !elem_of_cons. destruct Hcase; auto.
    + destruct (Hbound _ _ _ Hk') as (? & ? & Hfit). split_and!; [done..|].
      intros Hout. apply Hfit. intros Hin. apply Hout.
      rewrite teams_of_app, elem_of_app. by left.
  - simpl in Hv'. subst v'. exists streak'. split_and!; [done..|].
    intros team home away Hteam. destruct (Hk' _ _ _ Hteam) as (? & ? & _). done.
Qed.

(** X17.  When no team plays twice in a round and every game is between
    teams of [0, N), a threshold that is at least the number of rounds is
    never exceeded: [countMaxStreakViolations] returns 0. *)
Theorem countMaxStreakViolations_long_threshold (self : Experiment)
    (tournament : list (list (Z * Z))) :
  Z.of_nat (length tournament) ≤ MAXSTREAK self →
  Forall (λ round, Forall (in_range_game (NTEAMS self)) round ∧
                   NoDup (teams_of round)) tournament →
  countMaxStreakViolations self tournament = Ok 0.
Proof.
  intros HT Hall. rewrite countMaxStreakViolations_unfold.
  edestruct (for_each_prefix (λ pre st,
      st.1 = 0 ∧ streak_wf (NTEAMS self) st.2 ∧
      ∀ team home away, st.2 !! team = Some (home, away) →
        home ≤ Z.of_nat (length pre) ∧ away ≤ Z.of_nat (length pre))
    (for_each (streak_step (MAXSTREAK self))) tournament
    (0, streak_init (NTEAMS self)))
    as ([v streak] & -> & Hv & _).
  - simpl. split_and!; [done|apply streak_init_wf|].
    intros team home away Hteam. unfold streak_init in Hteam.
    rewrite streak_init_lookup_eq, lookup_empty in Hteam.
    case_decide; simplify_eq. simpl. lia.
  - intros pre round post [v s] Htour (Hv & Hs & Hbound).
    simpl in Hv, Hs, Hbound. subst v.
    assert (Forall (in_range_game (NTEAMS self)) round ∧ NoDup (teams_of round))
      as [Hround Hnd].
    { rewrite Htour in Hall. by apply Forall_app in Hall as [_ [? _]%Forall_cons]. }
    destruct (streak_round_below (MAXSTREAK self) (NTEAMS self)
                (Z.of_nat (length pre)) s round) as (s' & -> & Hs' & Hbound');
      [done..| |done|].
    { rewrite Htour, length_app in HT. simpl in HT. lia. }
    eexists. split; [done|]. simpl. split_and!; [done..|].
    intros team home away Hteam. rewrite length_app. simpl.
    destruct (Hbound' _ _ _ Hteam). lia.
  - simpl in Hv. by subst v.
Qed.

(** ** What [execute] keeps and records *)

Lemma same_config_refl e : same_config e e.
Proof. by repeat split. Qed.

Lemma same_config_trans e1 e2 e3 :
  same_config e1 e2 → same_config e2 e3 → same_config e1 e3.
Proof. unfold same_config. intros ? ?. split_and!; destruct_and!; congruence. Qed.

Section Configuration.
Context {rng : Type} (shuffle : rng → list Z → list Z * rng).

Lemma execute_repetition_config w :
  same_config (this w) (this (execute_repetition shuffle w).2).
Proof.
  unfold execute_repetition, bind at 1.
  destruct (randomTournament shuffle w) as [[tournament|e] w1] eqn:Hrt;
    apply randomTournament_this in Hrt; [|simpl; rewrite Hrt; apply same_config_refl].
  unfold bind, get_this, lift, modify_this, ret. simpl.
  destruct (countMaxStreakViolations _ _) as [v1|e]; simpl;
    [|rewrite Hrt; apply same_config_refl].
  destruct (countNoRepeatViolations _ _) as [v3|e]; simpl;
    unfold same_config; simpl; by rewrite Hrt.
Qed.

Lemma loop_py_config n w :
  same_config (this w) (this (loop_py n (execute_repetition shuffle) w).2).
Proof.
  revert w. induction n as [|n IH]; intros w; simpl; [apply same_config_refl|].
  unfold bind. pose proof (execute_repetition_config w) as Hrep.
  destruct (execute_repetition shuffle w) as [[[]|e] w1]; simpl in *; [|done].
  eapply same_config_trans; [done|apply IH].
Qed.

Lemma execute_loop_config w :
  same_config (this w) (this (execute_loop shuffle w).2).
Proof.
  unfold execute_loop, bind, get_this.
  apply (loop_py_config (Z.to_nat (NREPETITIONS (this w))) w).
Qed.

Lemma execute_config (write_results : Experiment → result unit) w :
  same_config (this w) (this (execute shuffle write_results w).2).
Proof.
  rewrite execute_unfold. pose proof (execute_loop_config w) as Hloop.
  by destruct (execute_loop shuffle w) as [[[]|e] w1].
Qed.
End Configuration.

(** X18.  Whether [execute] returns or raises, it leaves the configuration
    of the object as it was: repetitions, teams, rounds, games, games per
    round and threshold are never written. *)
Theorem execute_keeps_configuration {rng} (shuffle : rng → list Z → list Z * rng)
    (write_results : Experiment → result unit) (w : World rng) :
  let self' := this (execute shuffle write_results w).2 in
  NREPETITIONS self' = NREPETITIONS (this w) ∧ NTEAMS self' = NTEAMS (this w) ∧
  NROUNDS self' = NROUNDS (this w) ∧ NGAMES self' = NGAMES (this w) ∧
  NGAMESPERROUND self' = NGAMESPERROUND (this w) ∧
  MAXSTREAK self' = MAXSTREAK (this w).
Proof.
  intros self'. destruct (execute_config shuffle write_results w) as (? & ? & ? & ? & ? & ?).
  by split_and!.
Qed.

Lemma hist_keys_increment (P : Z → Prop) (h : gmap Z Z) key :
  hist_keys P h → P key → hist_keys P (increment h key 1).
Proof.
  intros Hh Hkey. unfold increment. apply map_Forall_insert_2; [|done].
  split; [done|]. destruct (h !! key) as [freq|] eqn:Hfreq; simpl; [|lia].
  destruct (Hh _ _ Hfreq). lia.
Qed.

Lemma perfect_matching_in_range N round :
  perfect_matching N round → Forall (in_range_game N) round.
Proof.
  intros Hpm. eapply Forall_impl; [by apply perfect_matching_valid|].
  by intros game (? & ? & _).
Qed.

Section Histograms.
Context {rng : Type} (shuffle : rng → list Z → list Z * rng).
Hypothesis shuffle_Permutation : ∀ s lst, (shuffle s lst).1 ≡ₚ lst.

Lemma execute_repetition_recorded N w :
  2 ≤ N → Z.even N = true → recorded N w →
  ∃ w', execute_repetition shuffle w = (Ok tt, w') ∧ recorded N w'.
Proof using shuffle_Permutation.
  intros HN He (Hteams & Hrounds & Hmax & Hdrr & Hnr). subst N.
  destruct (randomTournament_matchings shuffle w shuffle_Permutation He HN Hrounds)
    as (tournament & w1 & Hrun & Hthis & Hlen & Hall & _).
  assert (Forall (Forall (in_range_game (NTEAMS (this w)))) tournament) as Hrange.
  { eapply Forall_impl; [exact Hall|]. apply perfect_matching_in_range. }
  assert (Z.of_nat (length (flatten tournament))
          = NTEAMS (this w) * (NTEAMS (this w) - 1)) as Hgames.
  { rewrite (length_flatten_uniform (NTEAMS (this w) / 2)).
    - rewrite Hlen, Hrounds. pose proof He as [k Hk]%Z.even_spec. rewrite Hk.
      replace (2 * k / 2) with k by (apply Z.div_unique_exact; lia). lia.
    - eapply Forall_impl; [exact Hall|]. by intros round [? _]. }
  destruct (streak_rounds_in_range (MAXSTREAK (this w)) (NTEAMS (this w)) 0
              (streak_init (NTEAMS (this w))) tournament)
    as (v1 & s1 & Hv1 & _ & Hb1 & _); [apply streak_init_wf|done|].
  destruct (countNoRepeatViolations_matchings (this w) (NTEAMS (this w)) tournament)
    as (v3 & Hv3 & Hb3); [lia|done|].
  unfold execute_repetition, bind at 1. rewrite Hrun.
  unfold bind, get_this, lift, modify_this, ret. simpl. rewrite Hthis.
  rewrite countMaxStreakViolations_unfold, Hv1. simpl.
  change (countNoRepeatViolations _ tournament)
    with (countNoRepeatViolations (this w) tournament). rewrite Hv3. simpl.
  eexists. split; [done|]. unfold recorded. simpl. split_and!; [done..| | |].
  - apply hist_keys_increment; [done|]. lia.
  - apply hist_keys_increment; [done|]. split.
    + apply countDoubleRoundRobinViolations_nonneg.
    + change (countDoubleRoundRobinViolations _ tournament)
        with (countDoubleRoundRobinViolations (this w) tournament).
      rewrite countDoubleRoundRobinViolations_parity.
      * rewrite Hgames, Z.even_mul, He. done.
      * apply Forall_concat. eapply Forall_impl; [exact Hall|].
        apply perfect_matching_valid.
  - apply hist_keys_increment; [done|]. rewrite Hrounds in Hb3.
    replace (2 * (NTEAMS (this w) - 1) - 1) with (2 * NTEAMS (this w) - 3) in Hb3 by lia.
    done.
Qed.

Lemma loop_py_recorded N n w :
  2 ≤ N → Z.even N = true → recorded N w →
  ∃ w', loop_py n (execute_repetition shuffle) w = (Ok tt, w') ∧ recorded N w'.
Proof using shuffle_Permutation.
  intros HN He. revert w. induction n as [|n IH]; intros w Hw; simpl.
  - by exists w.
  - unfold bind.
    destruct (execute_repetition_recorded N w HN He Hw) as (w1 & -> & Hw1).
    by apply IH.
Qed.
End Histograms.

(** X19.  For every even N >= 2, the loop of [execute] on a fresh object
    returns, and leaves histograms whose frequencies are all positive and
    whose keys are possible counts: at most twice the N*(N-1) games for the
    max-streak histogram, even for the double-round-robin histogram, and at
    most (2*N-3) * (N // 2) for the no-repeat histogram; no key is
    negative.  These are the histograms that [execute] hands to the write
    of the results, and [execute] returns or raises as that write does. *)
Theorem execute_histogram_keys {rng} (shuffle : rng → list Z → list Z * rng)
    (write_results : Experiment → result unit)
    (s : rng) (R N T : Z) (self : Experiment) :
  (∀ s lst, (shuffle s lst).1 ≡ₚ lst) →
  Experiment_init R N T = Ok self → Z.even N = true → 2 ≤ N →
  ∃ w',
    execute_loop shuffle {| this := self; rand := s |} = (Ok tt, w') ∧
    execute shuffle write_results {| this := self; rand := s |}
      = (write_results (this w'), w') ∧
    map_Forall (λ key freq, 0 ≤ key ≤ 2 * (N * (N - 1)) ∧ 1 ≤ freq)
      (maxStreakViolations (this w')) ∧
    map_Forall (λ key freq, (0 ≤ key ∧ Z.even key = true) ∧ 1 ≤ freq)
      (doubleRoundRobinViolations (this w')) ∧
    map_Forall (λ key freq, 0 ≤ key ≤ (2 * N - 3) * (N / 2) ∧ 1 ≤ freq)
      (noRepeatViolations (this w')).
Proof.
  intros Hsh Hinit He HN.
  destruct (Experiment_init_Ok _ _ _ _ Hinit)
    as (_ & Hreps & Hteams & Hrounds & _ & Hh1 & Hh2 & Hh3).
  destruct (loop_py_recorded shuffle Hsh N (Z.to_nat R) {| this := self; rand := s |})
    as (w' & Hloop & _ & _ & Hmax & Hdrr & Hnr); [done..| |].
  { unfold recorded, hist_keys. simpl. rewrite Hh1, Hh2, Hh3.
    split_and!; [done..|apply map_Forall_empty|apply map_Forall_empty|apply map_Forall_empty]. }
  assert (execute_loop shuffle {| this := self; rand := s |} = (Ok tt, w')) as Hrun.
  { unfold execute_loop, bind, get_this. simpl. by rewrite Hreps. }
  exists w'. split; [done|]. split; [by apply execute_outcome|done].
Qed.

Lemma increment_tally n : 0 ≤ n → increment (tally n) 0 1 = tally (n + 1).
Proof.
  intros Hn. unfold tally, increment.
  rewrite (decide_True (P := 1 ≤ n + 1)) by lia.
  destruct (decide (1 ≤ n)).
  - rewrite lookup_singleton_eq. simpl. by rewrite insert_singleton_eq.
  - rewrite lookup_empty. simpl. replace n with 0 by lia. by rewrite insert_empty.
Qed.

Section NoTeams.
Context {rng : Type} (shuffle : rng → list Z → list Z * rng).

Lemma execute_repetition_no_teams w n :
  NTEAMS (this w) ≤ 0 → NROUNDS (this w) = 2 * (NTEAMS (this w) - 1) → 0 ≤ n →
  maxStreakViolations (this w) = tally n →
  doubleRoundRobinViolations (this w) = tally n →
  noRepeatViolations (this w) = tally n →
  ∃ w', execute_repetition shuffle w = (Ok tt, w') ∧ rand w' = rand w ∧
    NTEAMS (this w') = NTEAMS (this w) ∧ NROUNDS (this w') = NROUNDS (this w) ∧
    maxStreakViolations (this w') = tally (n + 1) ∧
    doubleRoundRobinViolations (this w') = tally (n + 1) ∧
    noRepeatViolations (this w') = tally (n + 1).
Proof.
  intros HN Hrounds Hn Hh1 Hh2 Hh3.
  unfold execute_repetition, bind at 1, randomTournament, bind at 1, get_this.
  cbv beta iota. replace (Z.to_nat (NROUNDS (this w))) with 0%nat by lia.
  cbn [repeat_py]. unfold ret at 1. cbv beta iota.
  unfold bind, get_this, lift, modify_this, ret. simpl.
  unfold countDoubleRoundRobinViolations, countNoRepeatViolations, range. simpl.
  rewrite !seqZ_nil by lia. simpl.
  eexists. split; [done|]. simpl.
  rewrite Hh1, Hh2, Hh3, !increment_tally by done. done.
Qed.

Lemma loop_py_no_teams k w n :
  NTEAMS (this w) ≤ 0 → NROUNDS (this w) = 2 * (NTEAMS (this w) - 1) → 0 ≤ n →
  maxStreakViolations (this w) = tally n →
  doubleRoundRobinViolations (this w) = tally n →
  noRepeatViolations (this w) = tally n →
  ∃ w', loop_py k (execute_repetition shuffle) w = (Ok tt, w') ∧ rand w' = rand w ∧
    maxStreakViolations (this w') = tally (n + Z.of_nat k) ∧
    doubleRoundRobinViolations (this w') = tally (n + Z.of_nat k) ∧
    noRepeatViolations (this w') = tally (n + Z.of_nat k).
Proof.
  revert w n. induction k as [|k IH]; intros w n HN Hrounds Hn Hh1 Hh2 Hh3;
    cbn [loop_py].
  - exists w. rewrite Z.add_0_r. by split_and!.
  - unfold bind. replace (n + Z.of_nat (S k)) with (n + 1 + Z.of_nat k) by lia.
    destruct (execute_repetition_no_teams w n)
      as (w1 & -> & Hrand & Hteams & Hrounds1 & Hh1' & Hh2' & Hh3'); [done..|].
    destruct (IH w1 (n + 1)) as (w2 & -> & Hrand2 & Hh1'' & Hh2'' & Hh3'');
      [lia|congruence|lia|done..|].
    exists w2. split_and!; [done|congruence|done..].
Qed.
End NoTeams.

(** X20.  A team count of zero or less is accepted: every tournament is
    empty, no randomness is drawn, every repetition counts 0 three times,
    and the loop of [execute] returns with each histogram holding the
    single entry 0 -> R, or nothing when R < 1.  [execute] then returns or
    raises as the write of these results does. *)
Theorem execute_no_teams {rng} (shuffle : rng → list Z → list Z * rng)
    (write_results : Experiment → result unit)
    (s : rng) (R N T : Z) (self : Experiment) :
  Experiment_init R N T = Ok self → N ≤ 0 →
  ∃ w',
    execute_loop shuffle {| this := self; rand := s |} = (Ok tt, w') ∧
    execute shuffle write_results {| this := self; rand := s |}
      = (write_results (this w'), w') ∧
    rand w' = s ∧
    maxStreakViolations (this w') = (if decide (1 ≤ R) then {[0 := R]} else ∅) ∧
    doubleRoundRobinViolations (this w') = (if decide (1 ≤ R) then {[0 := R]} else ∅) ∧
    noRepeatViolations (this w') = (if decide (1 ≤ R) then {[0 := R]} else ∅).
Proof.
  intros Hinit HN.
  destruct (Experiment_init_Ok _ _ _ _ Hinit)
    as (_ & Hreps & Hteams & Hrounds & _ & Hh1 & Hh2 & Hh3).
  destruct (loop_py_no_teams shuffle (Z.to_nat R) {| this := self; rand := s |} 0)
    as (w' & Hloop & Hrand & Hh1' & Hh2' & Hh3'); simpl; [lia|lia|done..|].
  assert (execute_loop shuffle {| this := self; rand := s |} = (Ok tt, w')) as Hrun.
  { unfold execute_loop, bind, get_this. simpl. by rewrite Hreps. }
  exists w'. split; [done|]. split; [by apply execute_outcome|]. split; [done|].
  rewrite Hh1', Hh2', Hh3'. unfold tally.
  destruct (decide (1 ≤ R)).
  - rewrite decide_True by lia. by replace (0 + Z.of_nat (Z.to_nat R)) with R by lia.
  - by rewrite decide_False by lia.
Qed.

(** ** The reduction and [main] *)

Lemma aggregate_results_reduce_step all_results exp threshold teams :
  aggregate_results (reduce_step all_results exp) threshold teams
    = if decide (slot exp = (threshold, teams)) then Some (experiment_results exp)
      else aggregate_results all_results threshold teams.
Proof.
  unfold aggregate_results, reduce_step, slot.
  destruct (decide (MAXSTREAK exp = threshold)) as [<-|Hs].
  - rewrite lookup_insert_eq. simpl.
    destruct (decide (NTEAMS exp = teams)) as [<-|Ht].
    + rewrite lookup_insert_eq. by rewrite decide_True.
    + rewrite lookup_insert_ne by (intros Heq; by simplify_eq).
      rewrite decide_False by congruence.
      by destruct (all_results !! _).
  - rewrite lookup_insert_ne by (intros Heq; by simplify_eq).
    by rewrite decide_False by congruence.
Qed.

Lemma aggregate_results_foldl_other all_results exps threshold teams :
  Forall (λ exp, slot exp ≠ (threshold, teams)) exps →
  aggregate_results (foldl reduce_step all_results exps) threshold teams
    = aggregate_results all_results threshold teams.
Proof.
  intros Hall. revert all_results.
  induction Hall as [|exp exps Hexp _ IH]; intros all_results; simpl; [done|].
  by rewrite IH, aggregate_results_reduce_step, decide_False.
Qed.

Lemma aggregate_results_last exps exp rest :
  Forall (λ later, slot later ≠ slot exp) rest →
  aggregate_results (reduce_results (exps ++ exp :: rest)) (MAXSTREAK exp) (NTEAMS exp)
    = Some (experiment_results exp).
Proof.
  intros Hrest. unfold reduce_results. rewrite foldl_app. simpl.
  rewrite aggregate_results_foldl_other by done.
  by rewrite aggregate_results_reduce_step, decide_True.
Qed.

(** X21.  In the aggregate, the slot of an experiment holds the three
    histograms of the last experiment reduced into that slot, each under
    the name of its counter. *)
Theorem reduce_results_lookup (exps : list Experiment) (exp : Experiment)
    (rest : list Experiment) :
  Forall (λ later, slot later ≠ slot exp) rest →
  ∃ results,
    aggregate_results (reduce_results (exps ++ exp :: rest))
      (MAXSTREAK exp) (NTEAMS exp) = Some results ∧
    results !! "maxStreakViolations" = Some (maxStreakViolations exp) ∧
    results !! "noRepeatViolations" = Some (noRepeatViolations exp) ∧
    results !! "doubleRoundRobinViolations" = Some (doubleRoundRobinViolations exp).
Proof.
  intros Hrest. exists (experiment_results exp).
  split; [by apply aggregate_results_last|].
  unfold experiment_results. split_and!.
  - by rewrite !lookup_insert_ne, lookup_insert_eq by done.
  - by rewrite lookup_insert_ne, lookup_insert_eq by done.
  - by rewrite lookup_insert_eq.
Qed.

(** X22.  The aggregate holds nothing for a threshold and a team count that
    no reduced experiment has. *)
Theorem reduce_results_absent (exps : list Experiment) (threshold teams : Z) :
  Forall (λ exp, slot exp ≠ (threshold, teams)) exps →
  aggregate_results (reduce_results exps) threshold teams = None.
Proof.
  intros Hall. unfold reduce_results.
  rewrite aggregate_results_foldl_other by done.
  unfold aggregate_results. by rewrite lookup_empty.
Qed.

Lemma main_experiments_Ok :
  ∃ experiments,
    main_experiments = Ok experiments ∧
    slot <$> experiments = main_slots ∧
    Forall fresh_experiment experiments.
Proof.
  eexists. split; [vm_compute; reflexivity|].
  split; [vm_compute; reflexivity|]. compute_done.
Qed.

Lemma NoDup_main_slots : NoDup main_slots.
Proof. compute_done. Qed.

Lemma elem_of_main_slots threshold teams :
  (threshold, teams) ∈ main_slots ↔ teams ∈ range_step 4 52 2 ∧ threshold ∈ range 1 6.
Proof.
  unfold main_slots. rewrite list_elem_of_bind. split.
  - intros (nTeams & (maxStreak & Hin & Hms)%list_elem_of_bind & Hn).
    apply list_elem_of_singleton in Hin as [= -> ->]. done.
  - intros [Hn Hms]. exists teams. split; [|done].
    apply list_elem_of_bind. exists threshold. split; [|done].
    by apply list_elem_of_singleton.
Qed.

Lemma traverse_Forall2 {A B} (P : A → Prop) (Q : A → B → Prop)
    (f : A → result B) (xs : list A) :
  (∀ x, P x → ∃ y, f x = Ok y ∧ Q x y) → Forall P xs →
  ∃ ys, traverse f xs = Ok ys ∧ Forall2 Q xs ys.
Proof.
  intros Hf. induction 1 as [|x xs Hx _ (ys & IH & Hys)]; simpl.
  - exists []. by split.
  - destruct (Hf x Hx) as (y & -> & Hy). simpl. rewrite IH. simpl.
    exists (y :: ys). split; [done|]. by constructor.
Qed.

Lemma executeExperiment_fresh {rng} (shuffle : rng → list Z → list Z * rng)
    (write_results : Experiment → result unit)
    (seed : Z → rng) (initial : rng) (exp : Experiment) :
  (∀ s lst, (shuffle s lst).1 ≡ₚ lst) → (∀ exp, write_results exp = Ok tt) →
  fresh_experiment exp →
  ∃ exp',
    (executeExperiment shuffle write_results seed {| this := exp; rand := initial |}).1
      = Ok exp' ∧
    completed_from exp exp'.
Proof.
  intros Hsh Hwrite (Hreps & HN & He & Hrounds & Hh1 & Hh2 & Hh3).
  unfold executeExperiment, bind at 1, random_seed. cbv beta iota.
  set (w := {| this := this {| this := exp; rand := initial |}; rand := seed 1 |}).
  destruct (execute_loop_total shuffle Hsh w) as [w' Hloop]; [done|].
  pose proof (execute_outcome shuffle write_results w w' Hloop) as Hrun.
  rewrite Hwrite in Hrun.
  pose proof (execute_records shuffle write_results w w' Hrun) as (H1 & H2 & H3).
  pose proof (execute_config shuffle write_results w) as (_ & Hteams & _ & _ & _ & Hstreak).
  unfold bind. rewrite Hrun in Hteams, Hstreak |- *. unfold get_this. simpl in *.
  exists (this w'). split; [done|]. unfold completed_from, slot.
  rewrite Hh1, Hh2, Hh3, Hreps, hist_total_empty in *.
  split_and!; [congruence|lia..].
Qed.

(** X23.  Whatever the random source and its state, when the results file
    of every experiment can be written, no experiment raises and [main]
    reaches its last statement with an aggregate that holds, for each of the
    thresholds 1..5 and each of the even team counts 4..50, three histograms
    whose frequencies sum to the 1000 repetitions, and nothing for any other
    threshold or team count.  [main] then returns or raises as the write of
    that aggregate does. *)
Theorem main_aggregate {rng} (shuffle : rng → list Z → list Z * rng)
    (write_results : Experiment → result unit) (seed : Z → rng) (initial : rng)
    (write_all : gmap string (gmap string (gmap string (gmap Z Z))) → result unit) :
  (∀ s lst, (shuffle s lst).1 ≡ₚ lst) → (∀ exp, write_results exp = Ok tt) →
  ∃ all_results,
    main_all_results shuffle write_results seed initial = Ok all_results ∧
    main shuffle write_results seed initial write_all = write_all all_results ∧
    (∀ nTeams maxStreak,
       nTeams ∈ range_step 4 52 2 → maxStreak ∈ range 1 6 →
       ∃ results h1 h2 h3,
         aggregate_results all_results maxStreak nTeams = Some results ∧
         results !! "maxStreakViolations" = Some h1 ∧
         results !! "noRepeatViolations" = Some h2 ∧
         results !! "doubleRoundRobinViolations" = Some h3 ∧
         hist_total h1 = 1000 ∧ hist_total h2 = 1000 ∧ hist_total h3 = 1000) ∧
    (∀ nTeams maxStreak,
       ¬ (nTeams ∈ range_step 4 52 2 ∧ maxStreak ∈ range 1 6) →
       aggregate_results all_results maxStreak nTeams = None).
Proof.
  intros Hsh Hwrite.
  destruct main_experiments_Ok as (experiments & Hbuilt & Hslots & Hfresh).
  destruct (traverse_Forall2 fresh_experiment completed_from
              (λ exp, (executeExperiment shuffle write_results seed
                         {| this := exp; rand := initial |}).1)
              experiments) as (completed_exps & Hpool & Hcompleted); [|done|].
  { intros exp. by apply executeExperiment_fresh. }
  assert (slot <$> completed_exps = main_slots) as Hslots'.
  { rewrite <-Hslots. clear -Hcompleted.
    induction Hcompleted as [|exp exp' ? ? [Hslot _] _ IH]; [done|].
    rewrite !fmap_cons. by f_equal. }
  assert (main_all_results shuffle write_results seed initial
          = Ok (reduce_results completed_exps)) as Hall.
  { unfold main_all_results, pool_map. rewrite Hbuilt. simpl. by rewrite Hpool. }
  exists (reduce_results completed_exps). split; [done|].
  split; [unfold main; by rewrite Hall|].
  split.
  - intros nTeams maxStreak Hn Hms.
    assert ((maxStreak, nTeams) ∈ slot <$> completed_exps) as Hin
      by (rewrite Hslots'; by apply elem_of_main_slots).
    apply list_elem_of_fmap in Hin as (exp' & Hslot & Hin).
    apply list_elem_of_split in Hin as (before & rest & ->).
    assert (Forall (λ later, slot later ≠ slot exp') rest) as Hrest.
    { pose proof NoDup_main_slots as Hnd. rewrite <-Hslots', fmap_app, fmap_cons in Hnd.
      apply NoDup_app in Hnd as (_ & _ & [Hnotin _]%NoDup_cons).
      apply Forall_forall. intros later Hlater Heq. apply Hnotin.
      rewrite <-Heq. by apply list_elem_of_fmap_2. }
    assert (completed_from_some : ∃ exp, completed_from exp exp').
    { apply Forall2_app_inv_r in Hcompleted as (? & ? & _ & Hcons & _).
      apply Forall2_cons_inv_r in Hcons as (exp & ? & Hexp & _ & _). by exists exp. }
    destruct completed_from_some as (exp & _ & H1 & H2 & H3).
    injection Hslot as -> ->.
    exists (experiment_results exp'), (maxStreakViolations exp'),
      (noRepeatViolations exp'), (doubleRoundRobinViolations exp').
    split; [by apply aggregate_results_last|].
    unfold experiment_results. split_and!; [| | |done..].
    + by rewrite !lookup_insert_ne, lookup_insert_eq by done.
    + by rewrite lookup_insert_ne, lookup_insert_eq by done.
    + by rewrite lookup_insert_eq.
  - intros nTeams maxStreak Hout. unfold reduce_results.
    rewrite aggregate_results_foldl_other.
    { unfold aggregate_results. by rewrite lookup_empty. }
    apply Forall_forall. intros exp Hexp Heq. apply Hout.
    apply elem_of_main_slots. rewrite <-Hslots', <-Heq. by apply list_elem_of_fmap_2.
Qed.

(** ** The codec, the random source and repeated runs *)

(** X24.  For N >= 2 the identifiers follow the order of the pairs: a pair
    with a smaller host, or with the same host and a smaller guest, has the
    smaller identifier. *)
Theorem teamIdsToGameId_monotone (self : Experiment) (host guest host' guest' : Z) :
  2 ≤ NTEAMS self →
  0 ≤ host < NTEAMS self → 0 ≤ guest < NTEAMS self → host ≠ guest →
  0 ≤ host' < NTEAMS self → 0 ≤ guest' < NTEAMS self → host' ≠ guest' →
  host < host' ∨ (host = host' ∧ guest < guest') →
  teamIdsToGameId self host guest < teamIdsToGameId self host' guest'.
Proof.
  intros HN Hh Hg Hne Hh' Hg' Hne' Hlt. unfold teamIdsToGameId.
  destruct (Z.gtb_spec guest host), (Z.gtb_spec guest' host'); nia.
Qed.

Section Draws.
Context {rng : Type} (shuffle : rng → list Z → list Z * rng).
Hypothesis shuffle_Permutation : ∀ s lst, (shuffle s lst).1 ≡ₚ lst.

Lemma repeat_py_draws (self : Experiment) n w :
  this w = self → 2 ≤ NTEAMS self → Z.even (NTEAMS self) = true →
  (repeat_py n (bind (randomRound shuffle)
                  (λ round, lift (traverse (gameIdToTeamIds self) round))) w).2
    = Nat.iter n (after_draw shuffle) w.
Proof using shuffle_Permutation.
  intros Hthis HN He. revert w Hthis.
  induction n as [|n IH]; intros w Hthis; [done|].
  rewrite Nat.iter_succ_r. cbn [repeat_py]. unfold bind at 1, bind at 1.
  rewrite randomRound_even by (done || congruence).
  unfold lift. rewrite (traverse_Ok_fmap _ (decode self))
    by (intros gid _; apply gameIdToTeamIds_decode; lia).
  specialize (IH (after_draw shuffle w) Hthis). unfold bind.
  destruct (repeat_py n _ (after_draw shuffle w)) as [[rounds|e] w']; simpl in *; done.
Qed.
End Draws.

(** X25.  For every even N >= 2, [randomTournament] draws exactly one
    shuffle of the teams per round: the random source it leaves is the
    one reached after NROUNDS successive draws. *)
Theorem randomTournament_draws {rng} (shuffle : rng → list Z → list Z * rng)
    (w : World rng) (N : Z) :
  (∀ s lst, (shuffle s lst).1 ≡ₚ lst) →
  NTEAMS (this w) = N → Z.even N = true → 2 ≤ N →
  (randomTournament shuffle w).2
    = Nat.iter (Z.to_nat (NROUNDS (this w))) (after_draw shuffle) w.
Proof.
  intros Hsh <- He HN. unfold randomTournament, bind at 1, get_this. cbv beta iota.
  by apply repeat_py_draws.
Qed.

(** X26.  A call of [execute] that returns has added the number of
    repetitions, or nothing when that number is negative, to the sum of the
    frequencies of each histogram, whatever the histograms held before. *)
Theorem execute_adds_repetitions {rng} (shuffle : rng → list Z → list Z * rng)
    (write_results : Experiment → result unit) (w : World rng) :
  (execute shuffle write_results w).1 = Ok tt →
  let w' := (execute shuffle write_results w).2 in
  hist_total (maxStreakViolations (this w'))
    = hist_total (maxStreakViolations (this w)) + Z.max 0 (NREPETITIONS (this w)) ∧
  hist_total (doubleRoundRobinViolations (this w'))
    = hist_total (doubleRoundRobinViolations (this w)) + Z.max 0 (NREPETITIONS (this w)) ∧
  hist_total (noRepeatViolations (this w'))
    = hist_total (noRepeatViolations (this w)) + Z.max 0 (NREPETITIONS (this w)).
Proof.
  intros Hrun w'. subst w'.
  destruct (execute shuffle write_results w) as [r w'] eqn:Hexec. simpl in Hrun. subst r.
  destruct (execute_records shuffle write_results w w' Hexec) as (H1 & H2 & H3). simpl.
  rewrite H1, H2, H3. split_and!; lia.
Qed.

(** ** The further properties at concrete inputs *)

Lemma Statistic_evaluate_witness :
  Statistic.evaluate fraction (foldl Statistic.record Statistic.init [])
    = Raise ZeroDivisionError ∧
  Statistic.evaluate fraction (foldl Statistic.record Statistic.init [3; 5; -2])
    = Ok ((6, 3), Statistic.Finite (-2), 5) ∧
  Statistic.evaluate too_large (foldl Statistic.record Statistic.init [3; 5; -2])
    = Raise OverflowError.
Proof.
  split; [|split].
  - apply (proj1 (Statistic_evaluate fraction [])). reflexivity.
  - apply (proj2 (Statistic_evaluate fraction [3; 5; -2])); [done|reflexivity].
  - apply (proj2 (Statistic_evaluate too_large [3; 5; -2])); [done|reflexivity].
Defined.

Lemma batched_partition_witness :
  (1 ≤ 2)%nat ∧
  concat (batched [1; 2; 3; 4; 5] 2) = [1; 2; 3; 4; 5] ∧
  ∀ i batch, batched [1; 2; 3; 4; 5] 2 !! i = Some batch →
    (0 < length batch ≤ 2)%nat ∧
    (S i < length (batched [1; 2; 3; 4; 5] 2) → length batch = 2)%nat.
Proof. split; [lia|]. apply (batched_partition [1; 2; 3; 4; 5] 2). lia. Defined.

Lemma randomRound_ids_witness :
  (∀ s lst, (reversing_shuffle s lst).1 ≡ₚ lst) ∧
  NTEAMS (this four_teams_world) = 4 ∧ Z.even 4 = true ∧ 2 ≤ 4 ∧
  ∃ round,
    randomRound reversing_shuffle four_teams_world
      = (Ok round, after_draw reversing_shuffle four_teams_world) ∧
    StronglySorted Z.lt round ∧
    Forall (λ gid, 0 ≤ gid < 4 * (4 - 1)) round.
Proof.
  split; [exact reversing_shuffle_Permutation|].
  split; [reflexivity|]. split; [reflexivity|]. split; [lia|].
  apply (randomRound_ids reversing_shuffle four_teams_world 4);
    [exact reversing_shuffle_Permutation|reflexivity|reflexivity|lia].
Defined.

Lemma randomRound_degenerate_witness :
  (∀ s lst, (reversing_shuffle s lst).1 ≡ₚ lst) ∧
  (Experiment_init 1000 3 3 = Ok three_teams ∧
   0 < NTEAMS three_teams ∧ Z.even (NTEAMS three_teams) = false ∧
   randomRound reversing_shuffle {| this := three_teams; rand := tt |}
     = (Raise TypeError,
        after_draw reversing_shuffle {| this := three_teams; rand := tt |})) ∧
  (Experiment_init 5 0 3 = Ok no_teams ∧
   NTEAMS no_teams ≤ 0 ∧
   randomRound reversing_shuffle {| this := no_teams; rand := tt |}
     = (Ok [], after_draw reversing_shuffle {| this := no_teams; rand := tt |})).
Proof.
  split; [exact reversing_shuffle_Permutation|]. split.
  - split; [reflexivity|]. split; [reflexivity|]. split; [reflexivity|].
    apply (randomRound_degenerate reversing_shuffle
             {| this := three_teams; rand := tt |} reversing_shuffle_Permutation);
      reflexivity.
  - split; [reflexivity|]. split; [simpl; lia|].
    apply (randomRound_degenerate reversing_shuffle
             {| this := no_teams; rand := tt |} reversing_shuffle_Permutation).
    simpl. lia.
Defined.

Lemma randomTournament_rounds_witness :
  (∀ s lst, (reversing_shuffle s lst).1 ≡ₚ lst) ∧
  NTEAMS (this four_teams_world) = 4 ∧ Z.even 4 = true ∧ 2 ≤ 4 ∧
  NROUNDS (this four_teams_world) = 2 * (4 - 1) ∧
  ∃ tournament w',
    randomTournament reversing_shuffle four_teams_world = (Ok tournament, w') ∧
    this w' = this four_teams_world ∧
    Z.of_nat (length tournament) = 2 * (4 - 1) ∧
    Forall (perfect_matching 4) tournament ∧
    Forall (λ round, StronglySorted Z.lt (round.*1)) tournament.
Proof.
  split; [exact reversing_shuffle_Permutation|].
  split; [reflexivity|]. split; [reflexivity|]. split; [lia|]. split; [reflexivity|].
  apply (randomTournament_rounds reversing_shuffle four_teams_world 4);
    [exact reversing_shuffle_Permutation|reflexivity|reflexivity|lia|reflexivity].
Defined.

Lemma countDoubleRoundRobinViolations_lower_bound_witness :
  0 ≤ NTEAMS four_teams ∧
  NTEAMS four_teams * (NTEAMS four_teams - 1) - Z.of_nat (length (flatten half_fixture))
    ≤ countDoubleRoundRobinViolations four_teams half_fixture ∧
  countDoubleRoundRobinViolations four_teams [] = NTEAMS four_teams * (NTEAMS four_teams - 1).
Proof.
  split; [simpl; lia|].
  apply (countDoubleRoundRobinViolations_lower_bound four_teams half_fixture).
  simpl. lia.
Defined.

Lemma countNoRepeatViolations_prefix_witness :
  NROUNDS four_teams ≤ Z.of_nat (length fixture) ∧
  countNoRepeatViolations four_teams (fixture ++ half_fixture)
    = countNoRepeatViolations four_teams fixture.
Proof.
  split; [simpl; lia|].
  apply (countNoRepeatViolations_prefix four_teams fixture half_fixture).
  simpl. lia.
Defined.

Lemma countNoRepeatViolations_bound_witness :
  1 ≤ NROUNDS four_teams ≤ Z.of_nat (length fixture) ∧
  Forall (perfect_matching 4) fixture ∧
  ∃ violations,
    countNoRepeatViolations four_teams fixture = Ok violations ∧
    0 ≤ violations ≤ (NROUNDS four_teams - 1) * (4 / 2).
Proof.
  assert (Forall (perfect_matching 4) fixture) as Hpm.
  { repeat constructor; compute_done. }
  split; [simpl; lia|]. split; [exact Hpm|].
  apply (countNoRepeatViolations_bound four_teams 4 fixture); [simpl; lia|exact Hpm].
Defined.

Lemma countMaxStreakViolations_bounds_witness :
  Forall (Forall (in_range_game (NTEAMS four_teams))) fixture ∧
  ∃ violations,
    countMaxStreakViolations four_teams fixture = Ok violations ∧
    0 ≤ violations ≤ 2 * Z.of_nat (length (flatten fixture)).
Proof.
  assert (Forall (Forall (in_range_game (NTEAMS four_teams))) fixture) as Hrange
    by compute_done.
  split; [exact Hrange|].
  apply (countMaxStreakViolations_bounds four_teams fixture Hrange).
Defined.

Lemma countMaxStreakViolations_no_tolerance_witness :
  MAXSTREAK four_teams_strict ≤ 0 ∧
  Forall (Forall (in_range_game (NTEAMS four_teams_strict))) fixture ∧
  countMaxStreakViolations four_teams_strict fixture
    = Ok (2 * Z.of_nat (length (flatten fixture))).
Proof.
  assert (Forall (Forall (in_range_game (NTEAMS four_teams_strict))) fixture) as Hrange
    by compute_done.
  split; [simpl; lia|]. split; [exact Hrange|].
  apply (countMaxStreakViolations_no_tolerance four_teams_strict fixture);
    [simpl; lia|exact Hrange].
Defined.

Lemma countMaxStreakViolations_long_threshold_witness :
  Z.of_nat (length half_fixture) ≤ MAXSTREAK four_teams ∧
  Forall (λ round, Forall (in_range_game (NTEAMS four_teams)) round ∧
                   NoDup (teams_of round)) half_fixture ∧
  countMaxStreakViolations four_teams half_fixture = Ok 0.
Proof.
  assert (Forall (λ round, Forall (in_range_game (NTEAMS four_teams)) round ∧
                           NoDup (teams_of round)) half_fixture) as Hrounds
    by compute_done.
  split; [simpl; lia|]. split; [exact Hrounds|].
  apply (countMaxStreakViolations_long_threshold four_teams half_fixture);
    [simpl; lia|exact Hrounds].
Defined.

Lemma execute_histogram_keys_witness :
  (∀ s lst, (reversing_shuffle s lst).1 ≡ₚ lst) ∧
  Experiment_init 1000 4 3 = Ok four_teams ∧ Z.even 4 = true ∧ 2 ≤ 4 ∧
  ∃ w',
    execute_loop reversing_shuffle four_teams_world = (Ok tt, w') ∧
    execute reversing_shuffle unwritable four_teams_world = (unwritable (this w'), w') ∧
    map_Forall (λ key freq, 0 ≤ key ≤ 2 * (4 * (4 - 1)) ∧ 1 ≤ freq)
      (maxStreakViolations (this w')) ∧
    map_Forall (λ key freq, (0 ≤ key ∧ Z.even key = true) ∧ 1 ≤ freq)
      (doubleRoundRobinViolations (this w')) ∧
    map_Forall (λ key freq, 0 ≤ key ≤ (2 * 4 - 3) * (4 / 2) ∧ 1 ≤ freq)
      (noRepeatViolations (this w')).
Proof.
  split; [exact reversing_shuffle_Permutation|].
  split; [reflexivity|]. split; [reflexivity|]. split; [lia|].
  apply (execute_histogram_keys reversing_shuffle unwritable tt 1000 4 3 four_teams);
    [exact reversing_shuffle_Permutation|reflexivity|reflexivity|lia].
Defined.

Lemma execute_no_teams_witness :
  Experiment_init 5 0 3 = Ok no_teams ∧ 0 ≤ 0 ∧
  ∃ w',
    execute_loop reversing_shuffle {| this := no_teams; rand := tt |} = (Ok tt, w') ∧
    execute reversing_shuffle written {| this := no_teams; rand := tt |}
      = (written (this w'), w') ∧
    rand w' = tt ∧
    maxStreakViolations (this w') = (if decide (1 ≤ 5) then {[0 := 5]} else ∅) ∧
    doubleRoundRobinViolations (this w') = (if decide (1 ≤ 5) then {[0 := 5]} else ∅) ∧
    noRepeatViolations (this w') = (if decide (1 ≤ 5) then {[0 := 5]} else ∅).
Proof.
  split; [reflexivity|]. split; [lia|].
  apply (execute_no_teams reversing_shuffle written tt 5 0 3 no_teams); [reflexivity|lia].
Defined.

Lemma reduce_results_lookup_witness :
  Forall (λ later, slot later ≠ slot four_teams) [six_teams] ∧
  ∃ results,
    aggregate_results (reduce_results ([four_teams_strict] ++ four_teams :: [six_teams]))
      (MAXSTREAK four_teams) (NTEAMS four_teams) = Some results ∧
    results !! "maxStreakViolations" = Some (maxStreakViolations four_teams) ∧
    results !! "noRepeatViolations" = Some (noRepeatViolations four_teams) ∧
    results !! "doubleRoundRobinViolations" = Some (doubleRoundRobinViolations four_teams).
Proof.
  assert (Forall (λ later, slot later ≠ slot four_teams) [six_teams]) as Hrest
    by compute_done.
  split; [exact Hrest|].
  apply (reduce_results_lookup [four_teams_strict] four_teams [six_teams] Hrest).
Defined.

Lemma reduce_results_absent_witness :
  Forall (λ exp, slot exp ≠ (3, 8)) [four_teams; six_teams] ∧
  aggregate_results (reduce_results [four_teams; six_teams]) 3 8 = None.
Proof.
  assert (Forall (λ exp, slot exp ≠ (3, 8)) [four_teams; six_teams]) as Hall
    by compute_done.
  split; [exact Hall|].
  apply (reduce_results_absent [four_teams; six_teams] 3 8 Hall).
Defined.

Lemma main_aggregate_witness :
  (∀ s lst, (reversing_shuffle s lst).1 ≡ₚ lst) ∧
  (∀ exp, written exp = Ok tt) ∧
  ∃ all_results,
    main_all_results reversing_shuffle written unit_seed tt = Ok all_results ∧
    main reversing_shuffle written unit_seed tt (λ _, Raise OSError) = Raise OSError ∧
    (∀ nTeams maxStreak,
       nTeams ∈ range_step 4 52 2 → maxStreak ∈ range 1 6 →
       ∃ results h1 h2 h3,
         aggregate_results all_results maxStreak nTeams = Some results ∧
         results !! "maxStreakViolations" = Some h1 ∧
         results !! "noRepeatViolations" = Some h2 ∧
         results !! "doubleRoundRobinViolations" = Some h3 ∧
         hist_total h1 = 1000 ∧ hist_total h2 = 1000 ∧ hist_total h3 = 1000) ∧
    (∀ nTeams maxStreak,
       ¬ (nTeams ∈ range_step 4 52 2 ∧ maxStreak ∈ range 1 6) →
       aggregate_results all_results maxStreak nTeams = None).
Proof.
  split; [exact reversing_shuffle_Permutation|].
  split; [reflexivity|].
  apply (main_aggregate reversing_shuffle written unit_seed tt (λ _, Raise OSError)
           reversing_shuffle_Permutation).
  reflexivity.
Defined.

Lemma teamIdsToGameId_monotone_witness :
  2 ≤ NTEAMS four_teams ∧
  0 ≤ 1 < NTEAMS four_teams ∧ 0 ≤ 3 < NTEAMS four_teams ∧ 1 ≠ 3 ∧
  0 ≤ 2 < NTEAMS four_teams ∧ 0 ≤ 0 < NTEAMS four_teams ∧ 2 ≠ 0 ∧
  (1 < 2 ∨ (1 = 2 ∧ 3 < 0)) ∧
  teamIdsToGameId four_teams 1 3 < teamIdsToGameId four_teams 2 0.
Proof.
  simpl. split_and!; try lia.
  apply (teamIdsToGameId_monotone four_teams 1 3 2 0); simpl; lia.
Defined.

Lemma randomTournament_draws_witness :
  (∀ s lst, (reversing_shuffle s lst).1 ≡ₚ lst) ∧
  NTEAMS (this four_teams_world) = 4 ∧ Z.even 4 = true ∧ 2 ≤ 4 ∧
  (randomTournament reversing_shuffle four_teams_world).2
    = Nat.iter (Z.to_nat (NROUNDS (this four_teams_world)))
        (after_draw reversing_shuffle) four_teams_world.
Proof.
  split; [exact reversing_shuffle_Permutation|].
  split; [reflexivity|]. split; [reflexivity|]. split; [lia|].
  apply (randomTournament_draws reversing_shuffle four_teams_world 4);
    [exact reversing_shuffle_Permutation|reflexivity|reflexivity|lia].
Defined.

Lemma execute_adds_repetitions_witness :
  (execute reversing_shuffle written {| this := two_repetitions; rand := tt |}).1 = Ok tt ∧
  let w' := (execute reversing_shuffle written {| this := two_repetitions; rand := tt |}).2 in
  hist_total (maxStreakViolations (this w'))
    = hist_total (maxStreakViolations two_repetitions) + Z.max 0 2 ∧
  hist_total (doubleRoundRobinViolations (this w'))
    = hist_total (doubleRoundRobinViolations two_repetitions) + Z.max 0 2 ∧
  hist_total (noRepeatViolations (this w'))
    = hist_total (noRepeatViolations two_repetitions) + Z.max 0 2.
Proof.
  assert ((execute reversing_shuffle written
             {| this := two_repetitions; rand := tt |}).1 = Ok tt)
    as Hrun by (vm_compute; reflexivity).
  split; [exact Hrun|].
  apply (execute_adds_repetitions reversing_shuffle written
           {| this := two_repetitions; rand := tt |} Hrun).
Defined.
